(** * s3p_extract: the S3P0 archive packer and extractor

    A shallow embedding of [s3p_extract.py] and the properties of its
    archive format: header, entry table, S3V0 payload records, and the
    validation performed while extracting.

    Conventions of the embedding
    - bytes are [Byte.byte], byte strings and the memory map are [list byte];
    - Python integers are [Z]; list positions are [nat];
    - Python exceptions are values of [error], one constructor per raise
      site; a computation is a function from the mutable state it works on
      to a result and the state it leaves (state changes made before an
      exception is raised persist, as they do in Python);
    - the operating system is assumed to cooperate: files open, directories
      can be made, reads return the bytes asked for when they are there.
      What [os.sendfile] does is not assumed: whether the platform has it
      and what the kernel answers to each call are parameters of the
      packer. [print] calls have no effect on the state modelled here. *)

From Stdlib Require Import ZArith Lia.
From Stdlib Require Import Strings.Byte Strings.Ascii.
From stdpp Require Import base list strings gmap pretty.

Local Open Scope Z_scope.

(** ** Exceptions *)

Inductive error : Type :=
  | FileTooLarge          (* ValueError: File too large for S3V0 length field *)
  | ArchiveExceedsLimits  (* ValueError: Archive exceeds 32-bit offset/length limits *)
  | EntryOutOfBounds      (* ValueError: Entry points outside file bounds *)
  | BadS3VMagic (got : list byte) (* ValueError: Bad magic! Need S3V0 got ... *)
  | InvalidFilestart      (* ValueError: Invalid filestart in S3V0 header *)
  | FileTooSmall          (* ValueError: File too small for S3P header *)
  | BadS3PMagic           (* ValueError: Bad magic! Expected S3P0 *)
  | EntryTableExceeds     (* ValueError: Entry table exceeds file bounds *)
  | StructRange           (* struct.error: argument out of range *)
  | StructBuffer.         (* struct.error: buffer too small / wrong size *)

Inductive res (A : Type) : Type :=
  | Ok (a : A)
  | Err (e : error).
Arguments Ok {A} a.
Arguments Err {A} e.

(** The size-limit failures of the packer: the two explicit checks of
    [pack], and [struct]'s own refusal to encode a number that does not fit
    an unsigned 32-bit field. *)
Definition is_size_limit (e : error) : bool :=
  match e with
  | FileTooLarge | ArchiveExceedsLimits | StructRange => true
  | _ => false
  end.

(** ** State-and-exception computations *)

Definition M (S A : Type) : Type := S → res A * S.

Definition ret {S A} (a : A) : M S A := λ s, (Ok a, s).
Definition raise {S A} (e : error) : M S A := λ s, (Err e, s).
Definition bind {S A B} (c : M S A) (k : A → M S B) : M S B :=
  λ s, match c s with
       | (Ok a, s') => k a s'
       | (Err e, s') => (Err e, s')
       end.
Definition lift {S A} (r : res A) : M S A := λ s, (r, s).
Definition modify {S} (f : S → S) : M S unit := λ s, (Ok tt, f s).

Notation "x <- c ;; k" := (bind c (λ x, k))
  (at level 100, c at next level, right associativity).
Notation "c ;; k" := (bind c (λ _, k))
  (at level 100, right associativity).

(** ** Bytes and little-endian words *)

#[global] Instance byte_eq_dec : EqDecision byte := Byte.byte_eq_dec.

Definition Z_of_byte (b : byte) : Z := Z.of_N (Byte.to_N b).
Definition byte_of_Z (z : Z) : byte :=
  default x00 (Byte.of_N (Z.to_N (z mod 256))).

Definition len {A} (l : list A) : Z := Z.of_nat (length l).

Definition zeros (n : Z) : list byte := replicate (Z.to_nat n) x00.

(** [struct] format [<I]: four bytes, least significant first. *)
Definition encode_u32 (v : Z) : list byte :=
  [byte_of_Z v; byte_of_Z (v / 256);
   byte_of_Z (v / 65536); byte_of_Z (v / 16777216)].

Definition decode_u32 (bs : list byte) : Z :=
  match bs with
  | [b0; b1; b2; b3] =>
      Z_of_byte b0 + 256 * Z_of_byte b1
      + 65536 * Z_of_byte b2 + 16777216 * Z_of_byte b3
  | _ => 0
  end.

(** An [I] field accepts exactly the unsigned 32-bit range. *)
Definition pack_u32 (v : Z) : res (list byte) :=
  if (0 <=? v) && (v <=? 0xFFFFFFFF) then Ok (encode_u32 v) else Err StructRange.

(** An [Ns] field truncates or null-pads its argument to [n] bytes. *)
Definition pack_s (n : nat) (s : list byte) : list byte :=
  take n s ++ replicate (n - length s) x00.

(** Python slicing [l[a:b]] with step 1, including the treatment of
    negative and out-of-range indices. *)
Definition norm_index {A} (l : list A) (i : Z) : Z :=
  if i <? 0 then Z.max 0 (i + len l) else Z.min i (len l).

Definition slice {A} (l : list A) (a b : Z) : list A :=
  let a' := norm_index l a in
  let b' := norm_index l b in
  take (Z.to_nat (b' - a')) (drop (Z.to_nat a') l).

(** ** Constants and struct layouts *)

Definition S3P_MAGIC : list byte := [x53; x33; x50; x30].   (* b"S3P0" *)
Definition S3V_MAGIC : list byte := [x53; x33; x56; x30].   (* b"S3V0" *)
Definition END_MARKER : Z := 0x12345678.

Definition HEADER_STRUCT_size : Z := 8.   (* <4sI *)
Definition ENTRY_STRUCT_size : Z := 8.    (* <II *)
Definition S3V0_STRUCT_size : Z := 32.    (* <4sII20s *)

Definition HEADER_STRUCT_pack (magic : list byte) (count : Z) : res (list byte) :=
  match pack_u32 count with
  | Ok c => Ok (pack_s 4 magic ++ c)
  | Err e => Err e
  end.

Definition ENTRY_STRUCT_pack (off ln : Z) : res (list byte) :=
  match pack_u32 off, pack_u32 ln with
  | Ok o, Ok l => Ok (o ++ l)
  | Err e, _ => Err e
  | _, Err e => Err e
  end.

Definition S3V0_STRUCT_pack (magic : list byte) (filestart payload_len : Z)
    (unknown : list byte) : res (list byte) :=
  match pack_u32 filestart, pack_u32 payload_len with
  | Ok f, Ok p => Ok (pack_s 4 magic ++ f ++ p ++ pack_s 20 unknown)
  | Err e, _ => Err e
  | _, Err e => Err e
  end.

(** [Struct.unpack_from(buffer, offset)] locates [size] bytes: a negative
    offset counts from the end, and a window that does not fit is refused.
    The result is the absolute start of the window. *)
Definition unpack_window {A} (buf : list A) (size offset : Z) : res Z :=
  let off := if offset <? 0 then offset + len buf else offset in
  if off <? 0 then Err StructBuffer
  else if len buf - off <? size then Err StructBuffer
  else Ok off.

Definition field (buf : list byte) (base : Z) (lo hi : Z) : list byte :=
  take (Z.to_nat (hi - lo)) (drop (Z.to_nat (base + lo)) buf).

Definition HEADER_STRUCT_decode (buf : list byte) (off : Z) : list byte * Z :=
  (field buf off 0 4, decode_u32 (field buf off 4 8)).

Definition S3V0_STRUCT_decode (buf : list byte) (off : Z)
    : list byte * Z * Z * list byte :=
  (field buf off 0 4, decode_u32 (field buf off 4 8),
   decode_u32 (field buf off 8 12), field buf off 12 32).

(** [ENTRY_STRUCT.iter_unpack(region)]: the region must be a whole number
    of 8-byte rows. *)
Fixpoint entry_rows (region : list byte) : list (Z * Z) :=
  match region with
  | o0 :: o1 :: o2 :: o3 :: l0 :: l1 :: l2 :: l3 :: rest =>
      (decode_u32 [o0; o1; o2; o3], decode_u32 [l0; l1; l2; l3]) :: entry_rows rest
  | _ => []
  end.

Definition ENTRY_STRUCT_iter_unpack (region : list byte) : res (list (Z * Z)) :=
  if len region mod ENTRY_STRUCT_size =? 0 then Ok (entry_rows region)
  else Err StructBuffer.

(** ** The packer *)

(** The output file object [out_f]: its bytes and the position of its
    cursor. It is opened unbuffered, so writes through the file object and
    through its descriptor move the same cursor. *)
Record ofile : Type := { fdata : list byte; fpos : nat }.

Definition new_file : ofile := {| fdata := []; fpos := 0 |}.

(** Writing at the cursor overwrites what is there and extends the file
    when it runs past the end (a gap left by a seek reads as zeros). *)
Definition write (bs : list byte) : M ofile unit :=
  modify (λ f,
    {| fdata := take (fpos f) (fdata f)
                ++ replicate (fpos f - length (fdata f)) x00
                ++ bs
                ++ drop (fpos f + length bs) (fdata f);
       fpos := (fpos f + length bs)%nat |}).

Definition tell : M ofile Z := λ f, (Ok (Z.of_nat (fpos f)), f).

Definition seek (p : Z) : M ofile unit :=
  modify (λ f, {| fdata := fdata f; fpos := Z.to_nat p |}).

(** An input file as [pack] sees it: the size [stat] reports and the bytes
    a read from the start delivers. *)
Record src_file : Type := { st_size : Z; content : list byte }.

Definition chunk_size : Z := 4 * 1024 * 1024.

(** The read/write loop of [_copy_file_fast]. [src] is the unread rest of
    the source; each round consumes at least one byte, so [fuel] larger
    than [length src] is never exhausted. *)
Fixpoint copy_loop (fuel : nat) (remaining : Z) (src : list byte) : M ofile unit :=
  match fuel with
  | O => ret tt
  | S fuel' =>
      if remaining =? 0 then ret tt
      else
        let data := take (Z.to_nat (Z.min chunk_size remaining)) src in
        match data with
        | [] => ret tt
        | _ =>
            write data ;;
            copy_loop fuel' (remaining - len data) (drop (length data) src)
        end
  end.

(** What the kernel answers to one [os.sendfile] call: the number of bytes
    it is ready to move in this call, or [OSError]. *)
Inductive sf_reply : Type :=
  | SfBytes (n : Z)
  | SfOSError.

(** The platform [pack] runs on: whether [os] has [sendfile], and what the
    kernel answers to the calls of a copy. The answers are given per copy,
    by the position of the output cursor when the copy starts (the copies
    of one run start at different positions), and per call of that copy,
    so that any behaviour of the kernel during a run can be described. *)
Record os_env : Type := {
  has_sendfile : bool;
  sendfile : Z → nat → sf_reply
}.

(** [while sent_total < size: sent = os.sendfile(dst, src, sent_total,
    size - sent_total) ...]: the [call]-th call moves at most
    [size - sent_total] bytes, at most what the source holds from
    [sent_total] on, and at most what the kernel is ready to move; the
    bytes land at the cursor of the output. The result is [sent_total] at
    the exit of the loop, or [None] when [OSError] was raised. Each round
    that goes on moves at least one byte, so [fuel] larger than the length
    of the source is never exhausted. *)
Fixpoint sendfile_loop (fuel : nat) (env : nat → sf_reply) (call : nat)
    (size sent_total : Z) (src : list byte) : M ofile (option Z) :=
  match fuel with
  | O => ret (Some sent_total)
  | S fuel' =>
      if sent_total <? size then
        match env call with
        | SfOSError => ret None
        | SfBytes n =>
            let available := drop (Z.to_nat sent_total) src in
            let data := take (Z.to_nat (Z.min n (size - sent_total))) available in
            let sent := len data in
            if sent =? 0 then ret (Some sent_total)
            else
              write data ;;
              sendfile_loop fuel' env (S call) size (sent_total + sent) src
        end
      else ret (Some sent_total)
  end.

(** The block under [if hasattr(os, "sendfile")]. The result is [None]
    when the block returns (everything was sent), and otherwise the
    position [os.lseek] leaves the source at: [sent_total] after a
    [break], 0 after [OSError]. *)
Definition try_sendfile (env : nat → sf_reply) (src : src_file) (size : Z)
    : M ofile (option Z) :=
  r <- sendfile_loop (S (length (content src))) env 0 size 0 (content src) ;;
  match r with
  | Some sent_total =>
      if sent_total =? size then ret None else ret (Some sent_total)
  | None => ret (Some 0)
  end.

(** [_copy_file_fast(src_fileno, dst_fileno, size)], the source freshly
    opened: the size guard, the [os.sendfile] block where the platform has
    it, and the read/write loop over [size] bytes from where the source
    stands. *)
Definition _copy_file_fast (os : os_env) (src : src_file) (size : Z)
    : M ofile unit :=
  if size <=? 0 then ret tt
  else
    resume <- (if has_sendfile os
               then (pos <- tell ;; try_sendfile (sendfile os pos) src size)
               else ret (Some 0)) ;;
    match resume with
    | None => ret tt
    | Some p =>
        let rest := drop (Z.to_nat p) (content src) in
        copy_loop (S (length rest)) size rest
    end.

(** The body of [for src_path in infiles]: one payload record is written
    and its table row [(offset, length)] computed. *)
Definition pack_entry (os : os_env) (src : src_file) : M ofile (Z * Z) :=
  let src_size := st_size src in
  if src_size >? 0xFFFFFFFF then raise FileTooLarge
  else
    offset <- tell ;;
    rec <- lift (S3V0_STRUCT_pack S3V_MAGIC 0x20 src_size (zeros 20)) ;;
    write rec ;;
    _copy_file_fast os src src_size ;;
    end_pos <- tell ;;
    let length := end_pos - offset in
    if (offset >? 0xFFFFFFFF) || (length >? 0xFFFFFFFF)
    then raise ArchiveExceedsLimits
    else ret (offset, length).

(** The loop itself, with [entries] accumulated by [append]. *)
Fixpoint pack_loop (os : os_env) (infiles : list src_file)
    (entries : list (Z * Z)) : M ofile (list (Z * Z)) :=
  match infiles with
  | [] => ret entries
  | src :: rest =>
      entry <- pack_entry os src ;;
      pack_loop os rest (entries ++ [entry])
  end.

(** [ENTRY_STRUCT.pack_into(table, pos, off, ln)] on a bytearray. *)
Definition ENTRY_STRUCT_pack_into (table : list byte) (pos off ln : Z)
    : res (list byte) :=
  match unpack_window table ENTRY_STRUCT_size pos, ENTRY_STRUCT_pack off ln with
  | Ok p, Ok row =>
      Ok (take (Z.to_nat p) table ++ row
          ++ drop (Z.to_nat p + length row) table)
  | Err e, _ => Err e
  | _, Err e => Err e
  end.

(** [for i, (off, ln) in enumerate(entries): pack_into(table, i * 8, off, ln)] *)
Fixpoint fill_table (table : list byte) (i : Z) (entries : list (Z * Z))
    : res (list byte) :=
  match entries with
  | [] => Ok table
  | (off, ln) :: rest =>
      match ENTRY_STRUCT_pack_into table (i * ENTRY_STRUCT_size) off ln with
      | Ok table' => fill_table table' (i + 1) rest
      | Err e => Err e
      end
  end.

Definition pack (os : os_env) (infiles : list src_file) : M ofile unit :=
  let infile_count := len infiles in
  hdr <- lift (HEADER_STRUCT_pack S3P_MAGIC infile_count) ;;
  write hdr ;;
  write (zeros (ENTRY_STRUCT_size * infile_count)) ;;
  entries <- pack_loop os infiles [] ;;
  end_marker <- lift (pack_u32 END_MARKER) ;;
  write end_marker ;;
  seek HEADER_STRUCT_size ;;
  table <- lift (fill_table (zeros (ENTRY_STRUCT_size * infile_count)) 0 entries) ;;
  write table.

(** [pack] on a freshly truncated output file. *)
Definition run_pack (os : os_env) (infiles : list src_file) : res unit * ofile :=
  pack os infiles new_file.

(** ** The extractor *)

Definition Path : Type := list string.

(** What extraction touches: the directories made, the files written, and
    the byte ranges [start, stop) requested from the memory map. *)
Record world : Type := {
  dirs : gset Path;
  files : gmap Path (list byte);
  reads : list (Z * Z)
}.

Definition empty_world : world := {| dirs := ∅; files := ∅; reads := [] |}.

Definition log_read (a b : Z) : M world unit :=
  modify (λ w, {| dirs := dirs w; files := files w; reads := reads w ++ [(a, b)] |}).

(** [Path.parent] and the prefixes [mkdir(parents=True)] creates. *)
Definition parent (p : Path) : Path := removelast p.

Fixpoint ancestors_and_self (p : Path) : list Path :=
  match p with
  | [] => []
  | c :: p' => [c] :: map (cons c) (ancestors_and_self p')
  end.

Definition mkdir_parents (p : Path) : M world unit :=
  modify (λ w, {| dirs := list_to_set (ancestors_and_self p) ∪ dirs w;
                  files := files w; reads := reads w |}).

Definition mkdir (p : Path) : M world unit :=
  modify (λ w, {| dirs := {[ p ]} ∪ dirs w; files := files w; reads := reads w |}).

(** [with out_file.open("wb") as wf: wf.write(data)] *)
Definition write_file (p : Path) (data : list byte) : M world unit :=
  modify (λ w, {| dirs := dirs w; files := <[p := data]> (files w); reads := reads w |}).

(** Reads of the memory map, each recorded with the range it asks for. *)
Definition mm_unpack_from {A} (decode : list byte → Z → A) (size : Z)
    (mm : list byte) (offset : Z) : M world A :=
  off <- lift (unpack_window mm size offset) ;;
  log_read off (off + size) ;;
  ret (decode mm off).

Definition mm_slice (mm : list byte) (a b : Z) : M world (list byte) :=
  log_read a b ;;
  ret (slice mm a b).

Definition _extract_one (mm : list byte) (offset length : Z) (out_file : Path)
    : M world unit :=
  if (offset <? 0) || (length <? S3V0_STRUCT_size) || (offset + length >? len mm)
  then raise EntryOutOfBounds
  else
    hdr <- mm_unpack_from S3V0_STRUCT_decode S3V0_STRUCT_size mm offset ;;
    let '(magic, filestart, _payload_len, _unknown) := hdr in
    if negb (bool_decide (magic = S3V_MAGIC))
    then
      got <- mm_slice mm offset (offset + 4) ;;
      raise (BadS3VMagic got)
    else
      let data_start := offset + filestart in
      let data_end := offset + length in
      if data_start >? data_end then raise InvalidFilestart
      else
        mkdir_parents (parent out_file) ;;
        data <- mm_slice mm data_start data_end ;;
        write_file out_file data.

(** [f"{i:04d}.wav"]: decimal, zero-padded on the left to four digits. *)
Fixpoint pad0 (n : nat) (s : string) : string :=
  match n with
  | O => s
  | S n' => String "0"%char (pad0 n' s)
  end.

Definition zfill (width : nat) (s : string) : string :=
  pad0 (width - String.length s) s.

Definition wav_name (i : nat) : string := zfill 4 (pretty i) +:+ ".wav".

(** [Path(f"{path}.out")] *)
Definition out_dir_of (path : Path) : Path :=
  match path with
  | [] => ["..out"%string]
  | _ => removelast path ++ [(List.last path ""%string +:+ ".out")%string]
  end.

(** [for i, (offset, length) in enumerate(rows, start=i)] *)
Fixpoint extract_loop (mm : list byte) (out_dir : Path) (i : nat)
    (rows : list (Z * Z)) : M world unit :=
  match rows with
  | [] => ret tt
  | (offset, length) :: rest =>
      let out_file := out_dir ++ [wav_name i] in
      _extract_one mm offset length out_file ;;
      extract_loop mm out_dir (S i) rest
  end.

(** [convert(path)], with [mm] the bytes of the file at [path]. *)
Definition convert (path : Path) (mm : list byte) : M world unit :=
  let out_dir := out_dir_of path in
  mkdir out_dir ;;
  let file_size := len mm in
  if file_size <? HEADER_STRUCT_size then raise FileTooSmall
  else
    hdr <- mm_unpack_from HEADER_STRUCT_decode HEADER_STRUCT_size mm 0 ;;
    let '(magic, entries_count) := hdr in
    if negb (bool_decide (magic = S3P_MAGIC)) then raise BadS3PMagic
    else
      let entries_table_end := HEADER_STRUCT_size + entries_count * ENTRY_STRUCT_size in
      if entries_table_end >? len mm then raise EntryTableExceeds
      else
        entries_region <- mm_slice mm HEADER_STRUCT_size entries_table_end ;;
        rows <- lift (ENTRY_STRUCT_iter_unpack entries_region) ;;
        extract_loop mm out_dir 1 rows.

(** ** Vocabulary of the statements *)

(** The bytes of the half-open range [a, b) of a byte string. *)
Definition bytes_range (mm : list byte) (a b : Z) : list byte :=
  take (Z.to_nat (b - a)) (drop (Z.to_nat a) mm).

(** A requested range lies within the memory map. *)
Definition in_bounds (mm : list byte) (r : Z * Z) : Prop :=
  0 <= r.1 ∧ r.1 <= r.2 ∧ r.2 <= len mm.

(** The tag and the [header_size] field stored in the record at [offset]. *)
Definition stored_magic (mm : list byte) (offset : Z) : list byte :=
  bytes_range mm offset (offset + 4).
Definition stored_header_size (mm : list byte) (offset : Z) : Z :=
  decode_u32 (bytes_range mm (offset + 4) (offset + 8)).

(** The bounds test a table row (offset, length) must pass. *)
Definition bounds_valid (mm : list byte) (offset length : Z) : Prop :=
  0 <= offset ∧ S3V0_STRUCT_size <= length ∧ offset + length <= len mm.

(** The tag and the entry count stored in the archive header, the end of
    the entry table they announce, and the rows of that table. *)
Definition archive_magic (mm : list byte) : list byte := bytes_range mm 0 4.
Definition stored_entry_count (mm : list byte) : Z :=
  decode_u32 (bytes_range mm 4 8).
Definition table_end (mm : list byte) : Z :=
  HEADER_STRUCT_size + stored_entry_count mm * ENTRY_STRUCT_size.
Definition entry_table (mm : list byte) : list (Z * Z) :=
  entry_rows (bytes_range mm HEADER_STRUCT_size (table_end mm)).

(** The world once [convert] has made its output directory. *)
Definition with_dir (p : Path) (w : world) : world :=
  {| dirs := {[ p ]} ∪ dirs w; files := files w; reads := reads w |}.

Definition add_reads (rs : list (Z * Z)) (w : world) : world :=
  {| dirs := dirs w; files := files w; reads := reads w ++ rs |}.

(** *** The packer's layout *)

(** An output file whose cursor stands at its end. *)
Definition eof (d : list byte) : ofile := {| fdata := d; fpos := length d |}.

(** The bytes a copy appends: what [_copy_file_fast os src size] adds to
    an output file whose cursor stands at its end, at position [pos]. *)
Definition copied (os : os_env) (pos : Z) (src : src_file) (size : Z)
    : list byte :=
  drop (Z.to_nat pos) (fdata (_copy_file_fast os src size (eof (zeros pos))).2).

(** A payload record: magic, header_size 0x20, payload_length, 20 reserved
    zero bytes, and the bytes that follow. *)
Definition s3v_record (payload_len : Z) (data : list byte) : list byte :=
  S3V_MAGIC ++ encode_u32 0x20 ++ encode_u32 payload_len ++ zeros 20 ++ data.

(** The record [pack] writes at [offset] for a source file (the copy
    starts once the 32 header bytes are written), and its length. *)
Definition record_of (os : os_env) (offset : Z) (src : src_file) : list byte :=
  s3v_record (st_size src)
    (copied os (offset + S3V0_STRUCT_size) src (st_size src)).
Definition record_len (os : os_env) (offset : Z) (src : src_file) : Z :=
  len (record_of os offset src).

(** The records of the files laid end to end from [base], and their table
    rows (offset, length): each offset is where the cursor stands, each
    length the bytes written from there. *)
Fixpoint records (os : os_env) (base : Z) (infiles : list src_file) : list byte :=
  match infiles with
  | [] => []
  | src :: rest =>
      record_of os base src ++ records os (base + record_len os base src) rest
  end.

Fixpoint layout (os : os_env) (base : Z) (infiles : list src_file)
    : list (Z * Z) :=
  match infiles with
  | [] => []
  | src :: rest =>
      (base, record_len os base src)
      :: layout os (base + record_len os base src) rest
  end.

(** No file size, offset or length of the layout leaves the unsigned
    32-bit range. *)
Fixpoint fits (os : os_env) (base : Z) (infiles : list src_file) : bool :=
  match infiles with
  | [] => true
  | src :: rest =>
      (0 <=? st_size src) && (st_size src <=? 0xFFFFFFFF)
      && (base <=? 0xFFFFFFFF) && (record_len os base src <=? 0xFFFFFFFF)
      && fits os (base + record_len os base src) rest
  end.

Definition body_start (infiles : list src_file) : Z :=
  HEADER_STRUCT_size + ENTRY_STRUCT_size * len infiles.

Definition packable (os : os_env) (infiles : list src_file) : bool :=
  (len infiles <=? 0xFFFFFFFF) && fits os (body_start infiles) infiles.

Definition encode_entry (e : Z * Z) : list byte :=
  encode_u32 e.1 ++ encode_u32 e.2.

(** The archive [pack] produces: header, entry table, records, end marker. *)
Definition archive_of (os : os_env) (infiles : list src_file) : list byte :=
  (S3P_MAGIC ++ encode_u32 (len infiles))
  ++ concat (map encode_entry (layout os (body_start infiles) infiles))
  ++ records os (body_start infiles) infiles
  ++ encode_u32 END_MARKER.

(** [pack] up to the end of the loop over the first files [pre] of an
    input list of [count] files. *)
Definition pack_begin (os : os_env) (count : Z) (pre : list src_file)
    : M ofile (list (Z * Z)) :=
  hdr <- lift (HEADER_STRUCT_pack S3P_MAGIC count) ;;
  write hdr ;;
  write (zeros (ENTRY_STRUCT_size * count)) ;;
  pack_loop os pre [].

(** The accurate [stat]: the size reported is the number of bytes read. *)
Definition stat_accurate (src : src_file) : Prop :=
  st_size src = len (content src).

(** A kernel that never raises and always moves something when asked. *)
Definition sf_honest (env : nat → sf_reply) : Prop :=
  ∀ call, ∃ n, env call = SfBytes n ∧ 0 < n.

(** A platform on which [os.sendfile], where it exists, raises [OSError]
    at the first call of a copy if it raises at all (the file or the
    destination is of a kind it does not support), never once a copy is
    under way. *)
Definition sf_reliable (env : nat → sf_reply) : Prop :=
  ∀ call, (0 < call)%nat → env call ≠ SfOSError.
Definition os_reliable (os : os_env) : Prop :=
  has_sendfile os = true → ∀ pos, sf_reliable (sendfile os pos).

(** The same platform without [os.sendfile]. *)
Definition without_sendfile (os : os_env) : os_env :=
  {| has_sendfile := false; sendfile := sendfile os |}.

(** *** The extractor's output *)

(** The files written for the records laid out from [base], for entries
    numbered from [i]: each holds the bytes copied into its record. *)
Fixpoint written (os : os_env) (base : Z) (out_dir : Path) (i : nat)
    (srcs : list src_file) (m : gmap Path (list byte)) : gmap Path (list byte) :=
  match srcs with
  | [] => m
  | src :: rest =>
      written os (base + record_len os base src) out_dir (S i) rest
        (<[out_dir ++ [wav_name i] :=
             copied os (base + S3V0_STRUCT_size) src (st_size src)]> m)
  end.

(** Dropping the zero padding of a decimal field. *)
Fixpoint strip0 (s : string) : string :=
  match s with
  | String c s' => if decide (c = "0"%char) then strip0 s' else s
  | EmptyString => s
  end.

(** Rows whose two fields fit unsigned 32-bit words. *)
Definition u32_row (e : Z * Z) : Prop :=
  0 <= e.1 <= 0xFFFFFFFF ∧ 0 <= e.2 <= 0xFFFFFFFF.

(** *** Sample data *)

(** A 32-byte record whose stored header_size is 0. *)
Definition headerless_record : list byte := S3V_MAGIC ++ encode_u32 0 ++ zeros 24.

(** A well-formed record: 32-byte header, three payload bytes. *)
Definition sample_record : list byte :=
  S3V_MAGIC ++ encode_u32 32 ++ encode_u32 3 ++ zeros 20 ++ [x61; x62; x63].
Definition sample_out : Path := ["x.s3p.out"; "0001.wav"]%string.

(** An archive header announcing two entries, with nothing after it. *)
Definition truncated_archive : list byte := S3P_MAGIC ++ encode_u32 2.

(** An archive with a good header and no entry. *)
Definition empty_archive : list byte := S3P_MAGIC ++ encode_u32 0.

(** Two small input files. *)
Definition file_a : src_file := {| st_size := 3; content := [x61; x62; x63] |}.
Definition file_b : src_file :=
  {| st_size := 5; content := [x01; x02; x03; x04; x05] |}.
(** A synthetic file reported as 2^32 bytes long. *)
Definition huge_file : src_file := {| st_size := 0x100000000; content := [] |}.

(** *** Extraction of an arbitrary table *)

(** The payload the extractor takes from the record of a row. *)
Definition row_payload (mm : list byte) (row : Z * Z) : list byte :=
  bytes_range mm (row.1 + stored_header_size mm row.1) (row.1 + row.2).

(** A row the extractor accepts. *)
Definition row_ok (mm : list byte) (row : Z * Z) : Prop :=
  bounds_valid mm row.1 row.2
  ∧ stored_magic mm row.1 = S3V_MAGIC
  ∧ row.1 + stored_header_size mm row.1 <= row.1 + row.2.

(** The files written for rows numbered from [i]. *)
Fixpoint written_rows (mm : list byte) (out_dir : Path) (i : nat)
    (rows : list (Z * Z)) (m : gmap Path (list byte)) : gmap Path (list byte) :=
  match rows with
  | [] => m
  | row :: rest =>
      written_rows mm out_dir (S i) rest (<[out_dir ++ [wav_name i] := row_payload mm row]> m)
  end.

(** The errors [convert] raises itself. *)
Definition is_format_error (e : error) : bool :=
  match e with
  | EntryOutOfBounds | BadS3VMagic _ | InvalidFilestart
  | FileTooSmall | BadS3PMagic | EntryTableExceeds => true
  | _ => false
  end.

(** The output files of [convert path]: NNNN.wav for entries 1 to [n]. *)
Definition entry_file (path : Path) (n : Z) (p : Path) : Prop :=
  ∃ i : nat, (1 <= i)%nat ∧ Z.of_nat i <= n ∧ p = out_dir_of path ++ [wav_name i].


(** *** More sample data *)

(** Platforms: one without [os.sendfile]; one whose kernel moves whatever
    it is asked to; one whose kernel refuses every call; one whose kernel
    moves two bytes and then fails; one whose kernel moves one byte, one
    more byte, and then fails. *)
Definition no_sendfile : os_env :=
  {| has_sendfile := false; sendfile := λ _ _, SfOSError |}.
Definition os_all_at_once : os_env :=
  {| has_sendfile := true; sendfile := λ _ _, SfBytes 0x7FFFFFFF |}.
Definition os_in_pairs : os_env :=
  {| has_sendfile := true; sendfile := λ _ _, SfBytes 2 |}.
Definition os_broken : os_env :=
  {| has_sendfile := true; sendfile := λ _ _, SfOSError |}.
Definition os_two_then_broken : os_env :=
  {| has_sendfile := true;
     sendfile := λ _ call, match call with O => SfBytes 2 | _ => SfOSError end |}.
Definition os_one_one_broken : os_env :=
  {| has_sendfile := true;
     sendfile := λ _ call,
       match call with
       | O => SfBytes 1
       | S O => SfBytes 1
       | _ => SfOSError
       end |}.

(** The archive of the two sample files with the tag of its second record
    damaged (byte 59 is the first byte of that record). *)
Definition corrupted_archive : list byte :=
  <[59%nat := x00]> (archive_of no_sendfile [file_a; file_b]).

(** The rows of a table up to the first one the extractor refuses, and the
    rows convert extracts from an archive: none unless header and table
    pass the archive-level checks. *)
Fixpoint accepted_prefix (mm : list byte) (rows : list (Z * Z)) : list (Z * Z) :=
  match rows with
  | [] => []
  | row :: rest =>
      if decide (row_ok mm row) then row :: accepted_prefix mm rest else []
  end.

Definition extracted_rows (mm : list byte) : list (Z * Z) :=
  if decide (HEADER_STRUCT_size <= len mm ∧ archive_magic mm = S3P_MAGIC
             ∧ table_end mm <= len mm)
  then accepted_prefix mm (entry_table mm)
  else [].


(** * Proofs *)

(** ** Arithmetic of the tests *)

Ltac btest :=
  repeat match goal with
  | |- context [ (?a <? ?b) ] => destruct (Z.ltb_spec a b)
  | |- context [ (?a <=? ?b) ] => destruct (Z.leb_spec a b)
  | |- context [ (?a >? ?b) ] => rewrite (Z.gtb_ltb a b)
  | |- context [ (?a =? ?b) ] => destruct (Z.eqb_spec a b)
  | H : context [ (?a <? ?b) ] |- _ => destruct (Z.ltb_spec a b)
  | H : context [ (?a <=? ?b) ] |- _ => destruct (Z.leb_spec a b)
  | H : context [ (?a >? ?b) ] |- _ => rewrite (Z.gtb_ltb a b) in H
  | H : context [ (?a =? ?b) ] |- _ => destruct (Z.eqb_spec a b)
  end.

Ltac munfold := unfold bind, ret, raise, lift, modify in *.

Lemma len_nonneg {A} (l : list A) : 0 <= len l.
Proof. unfold len. lia. Qed.

Lemma len_app {A} (l k : list A) : len (l ++ k) = len l + len k.
Proof. unfold len. rewrite length_app. lia. Qed.

Lemma len_zeros n : 0 <= n → len (zeros n) = n.
Proof. intros. unfold len, zeros. rewrite length_replicate. lia. Qed.

(** ** Bytes and words *)

Lemma Z_of_byte_range b : 0 <= Z_of_byte b < 256.
Proof.
  unfold Z_of_byte. pose proof (Byte.to_N_bounded b). lia.
Qed.

Lemma Z_of_byte_of_Z z : Z_of_byte (byte_of_Z z) = z mod 256.
Proof.
  unfold Z_of_byte, byte_of_Z.
  assert (Hr : 0 <= z mod 256 < 256) by (apply Z.mod_pos_bound; lia).
  destruct (Byte.of_N (Z.to_N (z mod 256))) as [b|] eqn:Hb.
  - apply Byte.to_of_N in Hb. simpl. rewrite Hb. lia.
  - apply Byte.of_N_None_iff in Hb. lia.
Qed.

Lemma decode_encode_u32 v :
  0 <= v <= 0xFFFFFFFF → decode_u32 (encode_u32 v) = v.
Proof.
  intros Hv. unfold decode_u32, encode_u32.
  rewrite !Z_of_byte_of_Z.
  pose proof (Z.div_mod v 256 ltac:(lia)).
  pose proof (Z.div_mod (v / 256) 256 ltac:(lia)).
  pose proof (Z.div_mod (v / 256 / 256) 256 ltac:(lia)).
  replace (v / 65536) with (v / 256 / 256)
    by (rewrite Z.div_div by lia; reflexivity).
  replace (v / 16777216) with (v / 256 / 256 / 256)
    by (rewrite !Z.div_div by lia; reflexivity).
  assert (v / 256 / 256 / 256 < 256).
  { rewrite !Z.div_div by lia. apply Z.div_lt_upper_bound; lia. }
  assert (0 <= v / 256 / 256 / 256).
  { rewrite !Z.div_div by lia. apply Z.div_pos; lia. }
  rewrite (Z.mod_small (v / 256 / 256 / 256)) by lia.
  lia.
Qed.

Lemma decode_u32_range bs : 0 <= decode_u32 bs <= 0xFFFFFFFF.
Proof.
  unfold decode_u32.
  destruct bs as [|b0 [|b1 [|b2 [|b3 [|]]]]]; try lia.
  pose proof (Z_of_byte_range b0). pose proof (Z_of_byte_range b1).
  pose proof (Z_of_byte_range b2). pose proof (Z_of_byte_range b3). lia.
Qed.

Lemma length_encode_u32 v : length (encode_u32 v) = 4%nat.
Proof. reflexivity. Qed.

Lemma pack_u32_ok v : 0 <= v <= 0xFFFFFFFF → pack_u32 v = Ok (encode_u32 v).
Proof. intros. unfold pack_u32. btest; simpl; try lia; reflexivity. Qed.

(** ** Slices *)

Lemma slice_in_range {A} (l : list A) a b :
  0 <= a → a <= b → b <= len l → slice l a b = take (Z.to_nat (b - a)) (drop (Z.to_nat a) l).
Proof.
  intros. unfold slice, norm_index. btest; try lia.
  rewrite !Z.min_l by lia. reflexivity.
Qed.

Lemma slice_bytes_range mm a b :
  0 <= a → a <= b → b <= len mm → slice mm a b = bytes_range mm a b.
Proof. apply slice_in_range. Qed.

Lemma field_bytes_range mm off lo hi :
  field mm off lo hi = bytes_range mm (off + lo) (off + hi).
Proof. unfold field, bytes_range. do 2 f_equal. lia. Qed.

Lemma unpack_window_ok {A} (buf : list A) size offset :
  0 <= offset → offset + size <= len buf → unpack_window buf size offset = Ok offset.
Proof. intros. unfold unpack_window. btest; try lia. reflexivity. Qed.

(** ** One entry: the three outcomes of validation *)

Section ExtractOne.
Variables (mm : list byte) (offset length : Z) (out_file : Path) (w : world).

Lemma extract_one_out_of_bounds :
  ¬ bounds_valid mm offset length →
  _extract_one mm offset length out_file w = (Err EntryOutOfBounds, w).
Proof.
  unfold bounds_valid, _extract_one, S3V0_STRUCT_size. intros Hb.
  btest; simpl; try reflexivity. lia.
Qed.

Lemma extract_one_header :
  bounds_valid mm offset length →
  mm_unpack_from S3V0_STRUCT_decode S3V0_STRUCT_size mm offset w
  = (Ok (stored_magic mm offset, stored_header_size mm offset,
         decode_u32 (bytes_range mm (offset + 8) (offset + 12)),
         bytes_range mm (offset + 12) (offset + 32)),
     add_reads [(offset, offset + S3V0_STRUCT_size)] w).
Proof.
  unfold bounds_valid, S3V0_STRUCT_size. intros (H0 & H1 & H2).
  unfold mm_unpack_from, log_read. munfold.
  rewrite unpack_window_ok by lia.
  unfold S3V0_STRUCT_decode. rewrite !field_bytes_range.
  unfold stored_magic, stored_header_size.
  replace (offset + 0) with offset by lia. reflexivity.
Qed.

Lemma extract_one_bad_magic :
  bounds_valid mm offset length → stored_magic mm offset ≠ S3V_MAGIC →
  _extract_one mm offset length out_file w
  = (Err (BadS3VMagic (stored_magic mm offset)),
     add_reads [(offset, offset + S3V0_STRUCT_size); (offset, offset + 4)] w).
Proof.
  intros Hb Hm. pose proof (extract_one_header Hb) as Hh.
  destruct Hb as (H0 & H1 & H2). unfold S3V0_STRUCT_size in *.
  unfold _extract_one, S3V0_STRUCT_size.
  btest; simpl; try lia.
  unfold bind at 1. unfold S3V0_STRUCT_size in Hh. rewrite Hh.
  rewrite bool_decide_eq_false_2 by exact Hm. simpl.
  unfold mm_slice, log_read. munfold. simpl.
  rewrite slice_bytes_range by lia.
  unfold add_reads; simpl. rewrite <- app_assoc. reflexivity.
Qed.

Lemma extract_one_bad_layout :
  bounds_valid mm offset length → stored_magic mm offset = S3V_MAGIC →
  offset + stored_header_size mm offset > offset + length →
  _extract_one mm offset length out_file w
  = (Err InvalidFilestart, add_reads [(offset, offset + S3V0_STRUCT_size)] w).
Proof.
  intros Hb Hm Hl. pose proof (extract_one_header Hb) as Hh.
  destruct Hb as (H0 & H1 & H2). unfold S3V0_STRUCT_size in *.
  unfold _extract_one, S3V0_STRUCT_size.
  btest; simpl; try lia.
  unfold bind at 1. rewrite Hh.
  rewrite bool_decide_eq_true_2 by exact Hm. simpl.
  btest; try lia. reflexivity.
Qed.

Lemma extract_one_accept :
  bounds_valid mm offset length → stored_magic mm offset = S3V_MAGIC →
  offset + stored_header_size mm offset <= offset + length →
  _extract_one mm offset length out_file w
  = (Ok tt,
     {| dirs := list_to_set (ancestors_and_self (parent out_file)) ∪ dirs w;
        files := <[out_file :=
                    bytes_range mm (offset + stored_header_size mm offset)
                                   (offset + length)]> (files w);
        reads := reads w ++ [(offset, offset + S3V0_STRUCT_size);
                             (offset + stored_header_size mm offset,
                              offset + length)] |}).
Proof.
  intros Hb Hm Hl. pose proof (extract_one_header Hb) as Hh.
  destruct Hb as (H0 & H1 & H2). unfold S3V0_STRUCT_size in *.
  pose proof (decode_u32_range (bytes_range mm (offset + 4) (offset + 8))) as Hr.
  fold (stored_header_size mm offset) in Hr.
  unfold _extract_one, S3V0_STRUCT_size.
  btest; simpl; try lia.
  unfold bind at 1. rewrite Hh.
  rewrite bool_decide_eq_true_2 by exact Hm. simpl.
  btest; try lia.
  unfold mkdir_parents, mm_slice, write_file, log_read. munfold. simpl.
  rewrite slice_bytes_range by lia.
  rewrite <- app_assoc. reflexivity.
Qed.

(** Every call ends in exactly one of the four ways above. *)
Lemma extract_one_cases :
  (¬ bounds_valid mm offset length)
  ∨ (bounds_valid mm offset length ∧ stored_magic mm offset ≠ S3V_MAGIC)
  ∨ (bounds_valid mm offset length ∧ stored_magic mm offset = S3V_MAGIC
     ∧ offset + stored_header_size mm offset > offset + length)
  ∨ (bounds_valid mm offset length ∧ stored_magic mm offset = S3V_MAGIC
     ∧ offset + stored_header_size mm offset <= offset + length).
Proof.
  unfold bounds_valid.
  destruct (decide (0 <= offset ∧ S3V0_STRUCT_size <= length
                    ∧ offset + length <= len mm)) as [Hb|Hb];
    [|left; exact Hb].
  destruct (decide (stored_magic mm offset = S3V_MAGIC)) as [Hm|Hm];
    [|right; left; split; assumption].
  destruct (Z_gt_le_dec (offset + stored_header_size mm offset) (offset + length));
    [right; right; left | right; right; right]; repeat split; tauto || lia.
Qed.
End ExtractOne.

(** ** The archive header and entry table *)

Section Convert.
Variables (path : Path) (mm : list byte) (w : world).

Lemma convert_too_small :
  len mm < HEADER_STRUCT_size →
  convert path mm w = (Err FileTooSmall, with_dir (out_dir_of path) w).
Proof.
  intros H. unfold convert, mkdir. munfold. btest; try lia. reflexivity.
Qed.

Lemma convert_header :
  HEADER_STRUCT_size <= len mm →
  mm_unpack_from HEADER_STRUCT_decode HEADER_STRUCT_size mm 0
    (with_dir (out_dir_of path) w)
  = (Ok (archive_magic mm, stored_entry_count mm),
     add_reads [(0, HEADER_STRUCT_size)] (with_dir (out_dir_of path) w)).
Proof.
  unfold HEADER_STRUCT_size. intros H.
  unfold mm_unpack_from, log_read. munfold.
  rewrite unpack_window_ok by lia.
  unfold HEADER_STRUCT_decode. rewrite !field_bytes_range. reflexivity.
Qed.

Lemma convert_bad_magic :
  HEADER_STRUCT_size <= len mm → archive_magic mm ≠ S3P_MAGIC →
  convert path mm w
  = (Err BadS3PMagic,
     add_reads [(0, HEADER_STRUCT_size)] (with_dir (out_dir_of path) w)).
Proof.
  intros H Hm. pose proof (convert_header H) as Hh.
  unfold convert, mkdir. unfold bind at 1, modify.
  fold (with_dir (out_dir_of path) w).
  btest; try lia. unfold bind at 1. rewrite Hh.
  rewrite bool_decide_eq_false_2 by exact Hm. reflexivity.
Qed.

Lemma convert_table_exceeds :
  HEADER_STRUCT_size <= len mm → archive_magic mm = S3P_MAGIC →
  table_end mm > len mm →
  convert path mm w
  = (Err EntryTableExceeds,
     add_reads [(0, HEADER_STRUCT_size)] (with_dir (out_dir_of path) w)).
Proof.
  intros H Hm Ht. pose proof (convert_header H) as Hh.
  unfold convert, mkdir. unfold bind at 1, modify.
  fold (with_dir (out_dir_of path) w).
  btest; try lia. unfold bind at 1. rewrite Hh.
  rewrite bool_decide_eq_true_2 by exact Hm. simpl negb. cbv iota.
  fold (table_end mm). btest; try lia. reflexivity.
Qed.

Lemma convert_entries :
  HEADER_STRUCT_size <= len mm → archive_magic mm = S3P_MAGIC →
  table_end mm <= len mm →
  convert path mm w
  = extract_loop mm (out_dir_of path) 1 (entry_table mm)
      (add_reads [(0, HEADER_STRUCT_size); (HEADER_STRUCT_size, table_end mm)]
         (with_dir (out_dir_of path) w)).
Proof.
  intros H Hm Ht. pose proof (convert_header H) as Hh.
  pose proof (decode_u32_range (bytes_range mm 4 8)) as Hc.
  fold (stored_entry_count mm) in Hc.
  assert (Hte : HEADER_STRUCT_size <= table_end mm).
  { unfold table_end, ENTRY_STRUCT_size. lia. }
  unfold convert, mkdir. unfold bind at 1, modify.
  fold (with_dir (out_dir_of path) w).
  btest; try lia. unfold bind at 1. rewrite Hh.
  rewrite bool_decide_eq_true_2 by exact Hm. simpl negb. cbv iota.
  fold (table_end mm). btest; try lia.
  unfold mm_slice, log_read. munfold. cbn [fst snd].
  rewrite slice_bytes_range by (unfold HEADER_STRUCT_size in *; lia).
  unfold ENTRY_STRUCT_iter_unpack.
  assert (Hl : len (bytes_range mm HEADER_STRUCT_size (table_end mm))
               = stored_entry_count mm * ENTRY_STRUCT_size).
  { unfold bytes_range, len. rewrite length_take, length_drop.
    unfold table_end, len, HEADER_STRUCT_size, ENTRY_STRUCT_size in *. lia. }
  rewrite Hl. unfold ENTRY_STRUCT_size at 1 2.
  rewrite Z.mod_mul by lia. simpl.
  unfold add_reads. simpl. rewrite <- app_assoc. reflexivity.
Qed.
End Convert.

(** ** Properties of the extraction of one entry *)

(** The ranges requested from the memory map by one call, as a suffix of
    the trace, all lie inside the map. *)
Lemma extract_one_reads mm offset length out_file w :
  ∃ rs, reads (_extract_one mm offset length out_file w).2 = reads w ++ rs
        ∧ Forall (in_bounds mm) rs.
Proof.
  pose proof (decode_u32_range (bytes_range mm (offset + 4) (offset + 8))) as Hr.
  fold (stored_header_size mm offset) in Hr.
  destruct (extract_one_cases mm offset length)
    as [Hb|[[Hb Hm]|[(Hb & Hm & Hl)|(Hb & Hm & Hl)]]].
  - rewrite extract_one_out_of_bounds by exact Hb.
    exists []. rewrite app_nil_r. split; [reflexivity|constructor].
  - rewrite extract_one_bad_magic by assumption.
    eexists. split; [reflexivity|].
    destruct Hb as (H0 & H1 & H2). unfold S3V0_STRUCT_size in *.
    repeat constructor; simpl; lia.
  - rewrite extract_one_bad_layout by assumption.
    eexists. split; [reflexivity|].
    destruct Hb as (H0 & H1 & H2). unfold S3V0_STRUCT_size in *.
    repeat constructor; simpl; lia.
  - rewrite extract_one_accept by assumption.
    eexists. split; [reflexivity|].
    destruct Hb as (H0 & H1 & H2). unfold S3V0_STRUCT_size in *.
    repeat constructor; simpl; lia.
Qed.

(** C2. A table row whose length is below the 32-byte record header, whose
    end lies past the backing region, or whose offset is negative makes the
    extraction of that entry fail with the out-of-bounds error, the world
    untouched; and whatever the row, every range requested from the memory
    map while the entry is processed lies within the map. *)
Theorem C2_bounds_check mm offset length out_file w :
  (length < S3V0_STRUCT_size ∨ offset + length > len mm ∨ offset < 0 →
   _extract_one mm offset length out_file w = (Err EntryOutOfBounds, w))
  ∧ ∃ rs, reads (_extract_one mm offset length out_file w).2 = reads w ++ rs
          ∧ Forall (in_bounds mm) rs.
Proof.
  split; [|apply extract_one_reads].
  intros H. apply extract_one_out_of_bounds. unfold bounds_valid. lia.
Qed.

Lemma C2_bounds_check_witness :
  16 + 32 > len (zeros 40)
  ∧ _extract_one (zeros 40) 16 32 ["x.out"; "0001.wav"]%string empty_world
    = (Err EntryOutOfBounds, empty_world).
Proof.
  split; [reflexivity|].
  apply (proj1 (C2_bounds_check (zeros 40) 16 32 ["x.out"; "0001.wav"]%string
                  empty_world)).
  right; left. reflexivity.
Defined.

(** C3. For a record that passes the bounds and magic checks, the payload
    start is computed from the header_size stored in the record:
    data_start = offset + header_size, data_end = offset + length. The call
    fails with the invalid-layout error exactly when data_start > data_end,
    and otherwise succeeds and writes exactly the bytes of
    [data_start, data_end) to the entry's output file, having read the
    header and that range and nothing else. *)
Theorem C3_payload_slice mm offset length out_file w :
  bounds_valid mm offset length →
  stored_magic mm offset = S3V_MAGIC →
  let data_start := offset + stored_header_size mm offset in
  let data_end := offset + length in
  let run := _extract_one mm offset length out_file w in
  (data_start > data_end ↔ run.1 = Err InvalidFilestart)
  ∧ (data_start > data_end → files run.2 = files w)
  ∧ (data_start <= data_end →
     run.1 = Ok tt
     ∧ files run.2 = <[out_file := bytes_range mm data_start data_end]> (files w)
     ∧ reads run.2 = reads w ++ [(offset, offset + S3V0_STRUCT_size);
                                 (data_start, data_end)]).
Proof.
  intros Hb Hm data_start data_end run. subst run data_start data_end.
  destruct (Z_gt_le_dec (offset + stored_header_size mm offset) (offset + length))
    as [Hl|Hl].
  - rewrite extract_one_bad_layout by assumption. simpl.
    repeat split; auto; lia.
  - rewrite extract_one_accept by assumption. simpl.
    repeat split; auto; try lia. intros; discriminate.
Qed.

(** C5. A record that passes the bounds check but whose tag is not "S3V0"
    fails with the bad-magic error carrying the four bytes found at the
    record's offset, and leaves no output; a record that does not pass the
    bounds check fails with the out-of-bounds error before its tag is read. *)
Theorem C5_record_magic mm offset length out_file w :
  (bounds_valid mm offset length → stored_magic mm offset ≠ S3V_MAGIC →
   let run := _extract_one mm offset length out_file w in
   run.1 = Err (BadS3VMagic (stored_magic mm offset))
   ∧ files run.2 = files w ∧ dirs run.2 = dirs w)
  ∧ (¬ bounds_valid mm offset length →
     _extract_one mm offset length out_file w = (Err EntryOutOfBounds, w)).
Proof.
  split.
  - intros Hb Hm run. subst run.
    rewrite extract_one_bad_magic by assumption. simpl. auto.
  - apply extract_one_out_of_bounds.
Qed.

(** C6 (as amended). A record the extractor accepts has a table length of
    at least the 32-byte record header and a stored header_size between 0
    and that length. *)
Theorem C6_accepted_fields mm offset length out_file w w' :
  _extract_one mm offset length out_file w = (Ok tt, w') →
  S3V0_STRUCT_size <= length
  ∧ 0 <= stored_header_size mm offset <= length.
Proof.
  intros Hrun.
  pose proof (decode_u32_range (bytes_range mm (offset + 4) (offset + 8))) as Hr.
  fold (stored_header_size mm offset) in Hr.
  destruct (extract_one_cases mm offset length)
    as [Hb|[[Hb Hm]|[(Hb & Hm & Hl)|(Hb & Hm & Hl)]]].
  - rewrite extract_one_out_of_bounds in Hrun by exact Hb. discriminate.
  - rewrite extract_one_bad_magic in Hrun by assumption. discriminate.
  - rewrite extract_one_bad_layout in Hrun by assumption. discriminate.
  - destruct Hb as (H0 & H1 & H2). lia.
Qed.

Lemma C6_accepted_fields_witness :
  S3V0_STRUCT_size <= 32 ∧ 0 <= stored_header_size headerless_record 0 <= 32.
Proof.
  eapply (C6_accepted_fields headerless_record 0 32 ["x.out"; "0001.wav"]%string
            empty_world).
  vm_compute. reflexivity.
Defined.

(** C6 as stated fails: the extractor accepts a record whose stored
    header_size is 0, below the 32-byte record header, and writes the
    whole record, header included, as the payload. *)
Lemma C6_header_size_not_checked :
  ¬ (∀ mm offset length out_file w w',
       _extract_one mm offset length out_file w = (Ok tt, w') →
       S3V0_STRUCT_size <= stored_header_size mm offset
       ∧ S3V0_STRUCT_size <= length).
Proof.
  intros H.
  edestruct (H headerless_record 0 32 ["x.out"; "0001.wav"]%string empty_world)
    as [Hhs _]; [vm_compute; reflexivity|].
  vm_compute in Hhs. apply Hhs. reflexivity.
Qed.

(** C10. When the extraction of an entry fails a validation (bounds, magic
    or layout), no directory has been made and no file written by it: the
    directories and files are those found at entry. *)
Theorem C10_failed_entry_leaves_no_output mm offset length out_file w e w' :
  _extract_one mm offset length out_file w = (Err e, w') →
  dirs w' = dirs w ∧ files w' = files w.
Proof.
  intros Hrun.
  destruct (extract_one_cases mm offset length)
    as [Hb|[[Hb Hm]|[(Hb & Hm & Hl)|(Hb & Hm & Hl)]]].
  - rewrite extract_one_out_of_bounds in Hrun by exact Hb.
    injection Hrun as _ <-. auto.
  - rewrite extract_one_bad_magic in Hrun by assumption.
    injection Hrun as _ <-. auto.
  - rewrite extract_one_bad_layout in Hrun by assumption.
    injection Hrun as _ <-. auto.
  - rewrite extract_one_accept in Hrun by assumption. discriminate.
Qed.

Lemma C3_payload_slice_witness :
  let run := _extract_one sample_record 0 35 sample_out empty_world in
  run.1 = Ok tt
  ∧ files run.2 = <[sample_out := bytes_range sample_record
                                    (0 + stored_header_size sample_record 0)
                                    (0 + 35)]> (files empty_world)
  ∧ reads run.2 = reads empty_world
                  ++ [(0, 0 + S3V0_STRUCT_size);
                      (0 + stored_header_size sample_record 0, 0 + 35)].
Proof.
  refine (proj2 (proj2 (C3_payload_slice sample_record 0 35 sample_out
                          empty_world _ _)) _).
  - unfold bounds_valid. vm_compute. intuition discriminate.
  - reflexivity.
  - vm_compute. discriminate.
Defined.

Lemma C5_record_magic_witness :
  let run := _extract_one (zeros 32) 0 32 sample_out empty_world in
  run.1 = Err (BadS3VMagic (stored_magic (zeros 32) 0))
  ∧ files run.2 = files empty_world ∧ dirs run.2 = dirs empty_world.
Proof.
  refine (proj1 (C5_record_magic (zeros 32) 0 32 sample_out empty_world) _ _).
  - unfold bounds_valid. vm_compute. intuition discriminate.
  - vm_compute. discriminate.
Defined.

Lemma C10_failed_entry_leaves_no_output_witness :
  dirs (_extract_one (zeros 32) 0 32 sample_out empty_world).2 = dirs empty_world
  ∧ files (_extract_one (zeros 32) 0 32 sample_out empty_world).2
    = files empty_world.
Proof.
  apply (C10_failed_entry_leaves_no_output (zeros 32) 0 32 sample_out empty_world
           (BadS3VMagic (zeros 4))).
  vm_compute. reflexivity.
Defined.

(** ** Properties of the archive-level checks *)

(** C4. Extraction fails with the truncation error when the archive is
    smaller than the 8-byte header; with the bad-magic error when the
    header is there but its first four bytes are not "S3P0"; with the
    entry-table error when header and magic are good but entry_count rows
    of 8 bytes would end past the archive. In these three cases nothing is
    read beyond the header and no entry is processed. Only when the three
    checks pass does extraction go on to the entries, row by row. *)
Theorem C4_archive_validation path mm w :
  let w0 := with_dir (out_dir_of path) w in
  (len mm < HEADER_STRUCT_size →
   convert path mm w = (Err FileTooSmall, w0))
  ∧ (HEADER_STRUCT_size <= len mm → archive_magic mm ≠ S3P_MAGIC →
     convert path mm w = (Err BadS3PMagic, add_reads [(0, HEADER_STRUCT_size)] w0))
  ∧ (HEADER_STRUCT_size <= len mm → archive_magic mm = S3P_MAGIC →
     HEADER_STRUCT_size + stored_entry_count mm * ENTRY_STRUCT_size > len mm →
     convert path mm w
     = (Err EntryTableExceeds, add_reads [(0, HEADER_STRUCT_size)] w0))
  ∧ (HEADER_STRUCT_size <= len mm → archive_magic mm = S3P_MAGIC →
     HEADER_STRUCT_size + stored_entry_count mm * ENTRY_STRUCT_size <= len mm →
     convert path mm w
     = extract_loop mm (out_dir_of path) 1 (entry_table mm)
         (add_reads [(0, HEADER_STRUCT_size);
                     (HEADER_STRUCT_size, table_end mm)] w0)).
Proof.
  intros w0. subst w0. repeat split.
  - apply convert_too_small.
  - apply convert_bad_magic.
  - apply convert_table_exceeds.
  - apply convert_entries.
Qed.

Lemma C4_archive_validation_witness :
  convert ["x.s3p"%string] truncated_archive empty_world
  = (Err EntryTableExceeds,
     add_reads [(0, HEADER_STRUCT_size)]
       (with_dir (out_dir_of ["x.s3p"%string]) empty_world)).
Proof.
  refine (proj1 (proj2 (proj2 (C4_archive_validation ["x.s3p"%string]
                                 truncated_archive empty_world))) _ _ _).
  - vm_compute. discriminate.
  - reflexivity.
  - reflexivity.
Defined.

(** C8. An archive of at least 8 bytes with the magic "S3P0" and
    entry_count = 0 is extracted without error and no file is written:
    the files are those found at entry (none, from the empty world). *)
Theorem C8_empty_archive path mm w :
  HEADER_STRUCT_size <= len mm →
  archive_magic mm = S3P_MAGIC →
  stored_entry_count mm = 0 →
  (convert path mm w).1 = Ok tt ∧ files (convert path mm w).2 = files w.
Proof.
  intros H Hm Hc.
  rewrite convert_entries; try assumption.
  - unfold entry_table, table_end. rewrite Hc.
    unfold bytes_range. simpl. auto.
  - unfold table_end. rewrite Hc. simpl. exact H.
Qed.

Lemma C8_empty_archive_witness :
  (convert ["x.s3p"%string] empty_archive empty_world).1 = Ok tt
  ∧ files (convert ["x.s3p"%string] empty_archive empty_world).2 = ∅.
Proof.
  apply (C8_empty_archive ["x.s3p"%string] empty_archive empty_world).
  - vm_compute. discriminate.
  - reflexivity.
  - reflexivity.
Defined.

(** ** The output file of the packer *)

Lemma write_eof d bs : write bs (eof d) = (Ok tt, eof (d ++ bs)).
Proof.
  unfold write, modify, eof. simpl. f_equal. f_equal.
  - rewrite firstn_all, Nat.sub_diag. simpl.
    rewrite drop_ge by lia. rewrite app_nil_r. reflexivity.
  - rewrite length_app. reflexivity.
Qed.

Lemma tell_eof d : tell (eof d) = (Ok (len d), eof d).
Proof. reflexivity. Qed.

Lemma copy_loop_eof fuel : ∀ remaining src d,
  0 <= remaining → (length src < fuel)%nat →
  copy_loop fuel remaining src (eof d)
  = (Ok tt, eof (d ++ take (Z.to_nat remaining) src)).
Proof.
  induction fuel as [|fuel IH]; intros remaining src d Hr Hf; [lia|].
  cbn [copy_loop]. destruct (Z.eqb_spec remaining 0) as [->|Hne].
  { simpl. rewrite app_nil_r. reflexivity. }
  assert (Hk : (0 < Z.to_nat (Z.min chunk_size remaining))%nat)
    by (unfold chunk_size; lia).
  destruct (take (Z.to_nat (Z.min chunk_size remaining)) src) as [|b data] eqn:Hd.
  { destruct src as [|b src].
    - rewrite take_nil, app_nil_r. reflexivity.
    - destruct (Z.to_nat (Z.min chunk_size remaining)); [lia|discriminate]. }
  rewrite <- Hd. unfold bind. rewrite write_eof.
  assert (Hlen : (length (take (Z.to_nat (Z.min chunk_size remaining)) src)
                  <= Z.to_nat remaining)%nat)
    by (rewrite length_take; lia).
  assert (Hpos : (0 < length (take (Z.to_nat (Z.min chunk_size remaining)) src))%nat)
    by (rewrite Hd; simpl; lia).
  assert (Hsrc : (length (take (Z.to_nat (Z.min chunk_size remaining)) src)
                  <= length src)%nat)
    by (rewrite length_take; lia).
  set (data' := take (Z.to_nat (Z.min chunk_size remaining)) src) in *.
  rewrite IH; [|unfold len; lia|rewrite length_drop; lia].
  f_equal. f_equal. rewrite <- app_assoc. f_equal.
  assert (Hdata : data' = take (length data') src).
  { subst data'. rewrite length_take.
    destruct (Nat.le_gt_cases (Z.to_nat (Z.min chunk_size remaining)) (length src)).
    - rewrite Nat.min_l by lia. reflexivity.
    - rewrite Nat.min_r by lia. rewrite !take_ge by lia. reflexivity. }
  rewrite Hdata at 1. rewrite take_take_drop. f_equal. unfold len. lia.
Qed.

(** ** The copy primitive *)

(** The sendfile loop, whatever the kernel answers: it appends a stretch
    of the source that starts where it started, stops at [size] or at the
    end of the source at the latest, and ends by [OSError] only before
    [size] is reached. What it appends does not depend on what the output
    already holds. *)
Lemma sendfile_loop_shape fuel : ∀ env call size st src,
  0 <= st → st <= len src → (length src - Z.to_nat st < fuel)%nat →
  ∃ r st',
    st <= st' ∧ st' <= Z.max st (Z.min size (len src))
    ∧ (r = Some st'
       ∨ (r = None ∧ st' < size ∧ ∃ c, (call <= c)%nat ∧ env c = SfOSError))
    ∧ ∀ d, sendfile_loop fuel env call size st src (eof d)
           = (Ok r, eof (d ++ take (Z.to_nat (st' - st))
                                   (drop (Z.to_nat st) src))).
Proof.
  induction fuel as [|fuel IH]; intros env call size st src Hst Hsrc Hfuel; [lia|].
  cbn [sendfile_loop]. destruct (Z.ltb_spec st size) as [Hlt|Hge].
  2:{ exists (Some st), st. repeat split; try lia; [left; reflexivity|].
      intros d. rewrite Z.sub_diag. simpl. rewrite app_nil_r. reflexivity. }
  destruct (env call) as [n|] eqn:Henv.
  2:{ exists None, st. repeat split; try lia.
      - right. repeat split; [exact Hlt|]. exists call. split; [lia|exact Henv].
      - intros d. rewrite Z.sub_diag. simpl. rewrite app_nil_r. reflexivity. }
  set (data := take (Z.to_nat (Z.min n (size - st))) (drop (Z.to_nat st) src)).
  assert (Hlen : len data = Z.max 0 (Z.min (Z.min n (size - st)) (len src - st))).
  { subst data. unfold len in *. rewrite length_take, length_drop. lia. }
  destruct (Z.eqb_spec (len data) 0) as [H0|H0].
  { exists (Some st), st. repeat split; try lia; [left; reflexivity|].
    intros d. rewrite Z.sub_diag. simpl. rewrite app_nil_r. reflexivity. }
  destruct (IH env (S call) size (st + len data) src)
    as (r & st' & Hle & Hub & Hr & Hrun); [lia|lia|unfold len in *; lia|].
  exists r, st'. repeat split; try lia.
  - destruct Hr as [Hr|(Hr & Hsz & c & Hc & Hec)]; [left; exact Hr|].
    right. repeat split; [exact Hr|exact Hsz|]. exists c. split; [lia|exact Hec].
  - intros d. unfold bind. rewrite write_eof, Hrun.
    f_equal. f_equal. rewrite <- app_assoc. f_equal.
    subst data. unfold len in *.
    set (k := Z.to_nat (Z.min n (size - st))) in *.
    set (a := drop (Z.to_nat st) src) in *.
    assert (Hk : take k a = take (length (take k a)) a).
    { rewrite length_take.
      destruct (Nat.le_gt_cases k (length a)).
      - rewrite Nat.min_l by lia. reflexivity.
      - rewrite Nat.min_r by lia. rewrite !take_ge by lia. reflexivity. }
    rewrite Hk at 1.
    replace (drop (Z.to_nat (st + Z.of_nat (length (take k a)))) src)
      with (drop (length (take k a)) a)
      by (subst a; rewrite drop_drop; f_equal; lia).
    rewrite take_take_drop. f_equal. lia.
Qed.

Lemma sendfile_loop_honest env : sf_honest env →
  ∀ fuel call size sent_total src d,
    0 <= sent_total <= size → sent_total <= len src →
    (length src - Z.to_nat sent_total < fuel)%nat →
    sendfile_loop fuel env call size sent_total src (eof d)
    = (Ok (Some (Z.min size (len src))),
       eof (d ++ take (Z.to_nat (Z.min size (len src) - sent_total))
                      (drop (Z.to_nat sent_total) src))).
Proof.
  intros Henv. induction fuel as [|fuel IH];
    intros call size st src d Hst Hsrc Hfuel; [lia|].
  cbn [sendfile_loop]. destruct (Z.ltb_spec st size) as [Hlt|Hge].
  - destruct (Henv call) as (n & -> & Hn).
    set (data := take (Z.to_nat (Z.min n (size - st))) (drop (Z.to_nat st) src)).
    assert (Hlen : len data = Z.min (Z.min n (size - st)) (len src - st)).
    { subst data. unfold len in *. rewrite length_take, length_drop. lia. }
    destruct (Z.eqb_spec (len data) 0) as [H0|H0].
    + assert (st = len src) by lia. subst st.
      rewrite Z.min_r by lia. rewrite Z.sub_diag. simpl.
      rewrite app_nil_r. reflexivity.
    + unfold bind. rewrite write_eof.
      rewrite IH; [|lia|lia|unfold len in *; lia].
      f_equal. f_equal. rewrite <- app_assoc. f_equal.
      subst data. unfold len in Hlen |- *.
      set (k := Z.to_nat (Z.min n (size - st))) in *.
      set (a := drop (Z.to_nat st) src) in *.
      assert (Hk : take k a = take (length (take k a)) a).
      { rewrite length_take.
        destruct (Nat.le_gt_cases k (length a)).
        - rewrite Nat.min_l by lia. reflexivity.
        - rewrite Nat.min_r by lia. rewrite !take_ge by lia. reflexivity. }
      rewrite Hk at 1.
      replace (drop (Z.to_nat (st + Z.of_nat (length (take k a)))) src)
        with (drop (length (take k a)) a).
      2:{ subst a. rewrite drop_drop. f_equal. lia. }
      rewrite take_take_drop. f_equal.
      unfold len in *. lia.
  - assert (st = size) by lia. subst st.
    rewrite Z.min_l by lia. rewrite Z.sub_diag. simpl.
    rewrite app_nil_r. reflexivity.
Qed.

(** The read/write loop from position [p] of the source. *)
Lemma copy_rest_eof (src : list byte) size p d :
  0 <= size →
  copy_loop (S (length (drop (Z.to_nat p) src))) size (drop (Z.to_nat p) src) (eof d)
  = (Ok tt, eof (d ++ take (Z.to_nat size) (drop (Z.to_nat p) src))).
Proof. intros Hs. apply copy_loop_eof; lia. Qed.

(** Without [os.sendfile]. *)
Lemma copy_file_fast_loop os src size d :
  has_sendfile os = false →
  _copy_file_fast os src size (eof d)
  = (Ok tt, eof (d ++ take (Z.to_nat size) (content src))).
Proof.
  intros Hno. unfold _copy_file_fast. destruct (Z.leb_spec size 0).
  - replace (Z.to_nat size) with 0%nat by lia.
    simpl. rewrite app_nil_r. reflexivity.
  - rewrite Hno. unfold bind, ret.
    change (Z.to_nat 0) with 0%nat. rewrite drop_0.
    apply copy_loop_eof; lia.
Qed.

(** With [os.sendfile], in terms of how the sendfile loop ends. *)
Lemma copy_file_fast_sendfile os src size d :
  has_sendfile os = true → 0 < size →
  ∃ r st',
    0 <= st' ∧ st' <= Z.min size (len (content src))
    ∧ (r = Some st'
       ∨ (r = None ∧ st' < size
          ∧ ∃ c, sendfile os (len d) c = SfOSError))
    ∧ sendfile_loop (S (length (content src))) (sendfile os (len d)) 0 size 0
        (content src) (eof d)
      = (Ok r, eof (d ++ take (Z.to_nat st') (content src)))
    ∧ _copy_file_fast os src size (eof d)
      = (Ok tt,
         eof (d ++ take (Z.to_nat st') (content src)
                ++ match r with
                   | Some _ =>
                       if st' =? size then []
                       else take (Z.to_nat size) (drop (Z.to_nat st') (content src))
                   | None => take (Z.to_nat size) (content src)
                   end)).
Proof.
  intros Hsf Hsize.
  pose proof (len_nonneg (content src)) as Hlen.
  destruct (sendfile_loop_shape (S (length (content src)))
              (sendfile os (len d)) 0 size 0 (content src))
    as (r & st' & Hle & Hub & Hr & Hrun); [lia|lia|lia|].
  exists r, st'.
  assert (Hrun' : sendfile_loop (S (length (content src))) (sendfile os (len d))
                    0 size 0 (content src) (eof d)
                  = (Ok r, eof (d ++ take (Z.to_nat st') (content src)))).
  { rewrite Hrun. rewrite Z.sub_0_r. change (Z.to_nat 0) with 0%nat.
    rewrite drop_0. reflexivity. }
  repeat split; try lia.
  - destruct Hr as [Hr|(Hr & Hsz & c & _ & Hc)]; [left; exact Hr|].
    right. repeat split; [exact Hr|exact Hsz|]. exists c. exact Hc.
  - exact Hrun'.
  - unfold _copy_file_fast. destruct (Z.leb_spec size 0); [lia|].
    rewrite Hsf. unfold bind at 1. unfold bind at 1. rewrite tell_eof.
    unfold try_sendfile. unfold bind at 1. rewrite Hrun'.
    destruct Hr as [->|(-> & Hsz & _)].
    + destruct (Z.eqb_spec st' size) as [Heq|Hne].
      * cbn [ret]. rewrite app_nil_r. reflexivity.
      * cbn [ret]. rewrite copy_rest_eof by lia.
        rewrite <- app_assoc. reflexivity.
    + cbn [ret]. change (Z.to_nat 0) with 0%nat. rewrite drop_0.
      rewrite copy_loop_eof by lia. rewrite <- app_assoc. reflexivity.
Qed.

(** What a copy appends depends on the output only through the position of
    its cursor: it is [copied]. *)
Lemma copy_appends os src size d :
  _copy_file_fast os src size (eof d)
  = (Ok tt, eof (d ++ copied os (len d) src size)).
Proof.
  assert (Hshape : ∃ X, ∀ d', len d' = len d →
            _copy_file_fast os src size (eof d') = (Ok tt, eof (d' ++ X))).
  { destruct (has_sendfile os) eqn:Hsf.
    2:{ eexists. intros d' _. apply copy_file_fast_loop. exact Hsf. }
    destruct (Z.leb_spec size 0) as [H0|H0].
    { exists []. intros d' _. unfold _copy_file_fast.
      destruct (Z.leb_spec size 0); [|lia]. rewrite app_nil_r. reflexivity. }
    pose proof (len_nonneg (content src)) as Hlen.
    destruct (sendfile_loop_shape (S (length (content src)))
                (sendfile os (len d)) 0 size 0 (content src))
      as (r & st' & Hle & Hub & Hr & Hrun); [lia|lia|lia|].
    exists (take (Z.to_nat (st' - 0)) (drop (Z.to_nat 0) (content src))
            ++ match r with
               | Some _ =>
                   if st' =? size then []
                   else take (Z.to_nat size) (drop (Z.to_nat st') (content src))
               | None => take (Z.to_nat size) (content src)
               end).
    intros d' Hd'. unfold _copy_file_fast.
    destruct (Z.leb_spec size 0); [lia|].
    rewrite Hsf. unfold bind at 1. unfold bind at 1. rewrite tell_eof, Hd'.
    unfold try_sendfile. unfold bind at 1. rewrite Hrun.
    destruct Hr as [->|(-> & Hsz & _)].
    - destruct (Z.eqb_spec st' size) as [Heq|Hne].
      + cbn [ret]. rewrite app_nil_r. reflexivity.
      + cbn [ret]. rewrite copy_rest_eof by lia.
        rewrite <- app_assoc. reflexivity.
    - cbn [ret]. change (Z.to_nat 0) with 0%nat at 3. rewrite (drop_0 (content src)).
      rewrite copy_loop_eof by lia. rewrite <- app_assoc. reflexivity. }
  destruct Hshape as (X & HX).
  rewrite (HX d eq_refl). unfold copied.
  rewrite (HX (zeros (len d))) by (apply len_zeros, len_nonneg).
  cbn [snd fdata eof].
  rewrite drop_app_length' by (unfold zeros; rewrite length_replicate; reflexivity).
  reflexivity.
Qed.

(** On a reliable platform a file whose size is reported accurately is
    copied as it is. *)
Lemma copy_reliable os src d :
  os_reliable os → stat_accurate src →
  _copy_file_fast os src (st_size src) (eof d) = (Ok tt, eof (d ++ content src)).
Proof.
  intros Hos Hstat. unfold stat_accurate in Hstat.
  pose proof (len_nonneg (content src)) as Hlen.
  destruct (has_sendfile os) eqn:Hsf.
  2:{ rewrite copy_file_fast_loop by exact Hsf.
      rewrite take_ge by (unfold len in *; lia). reflexivity. }
  destruct (Z.leb_spec (st_size src) 0) as [H0|H0].
  { unfold _copy_file_fast. destruct (Z.leb_spec (st_size src) 0); [|lia].
    assert (content src = []) as ->
      by (destruct (content src); [reflexivity|unfold len in *; simpl in *; lia]).
    rewrite app_nil_r. reflexivity. }
  destruct (copy_file_fast_sendfile os src (st_size src) d Hsf H0)
    as (r & st' & Hle & Hub & Hr & Hloop & Hrun).
  rewrite Hrun. f_equal. f_equal. f_equal.
  destruct Hr as [->|(-> & Hsz & c & Hc)].
  - destruct (Z.eqb_spec st' (st_size src)) as [Heq|Hne].
    + rewrite app_nil_r. apply take_ge. unfold len in *. lia.
    + rewrite (take_ge (drop _ _)) by (rewrite length_drop; unfold len in *; lia).
      apply take_drop.
  - destruct (Nat.eq_dec c 0%nat) as [->|Hc0].
    + (* the first call raised: nothing was sent *)
      assert (Hst : st' = 0).
      { cbn [sendfile_loop] in Hloop.
        destruct (Z.ltb_spec 0 (st_size src)); [|lia].
        rewrite Hc in Hloop. cbn [ret] in Hloop.
        injection Hloop as Heq. apply (f_equal (@length byte)) in Heq.
        rewrite length_app, length_take in Heq. unfold len in *. lia. }
      subst st'. simpl. apply take_ge. unfold len in *. lia.
    + exfalso. apply (Hos Hsf (len d) c); [lia|exact Hc].
Qed.

Lemma copied_reliable os pos src :
  os_reliable os → stat_accurate src →
  copied os pos src (st_size src) = content src.
Proof.
  intros Hos Hstat. unfold copied. rewrite copy_reliable by assumption.
  cbn [snd fdata eof].
  rewrite drop_app_length' by (unfold zeros; rewrite length_replicate; reflexivity).
  reflexivity.
Qed.

(** ** One payload record *)

Lemma record_of_split os offset src :
  record_of os offset src
  = (pack_s 4 S3V_MAGIC ++ encode_u32 0x20 ++ encode_u32 (st_size src)
     ++ pack_s 20 (zeros 20))
    ++ copied os (offset + S3V0_STRUCT_size) src (st_size src).
Proof. reflexivity. Qed.

Lemma len_s3v_record size data :
  len (s3v_record size data) = S3V0_STRUCT_size + len data.
Proof.
  unfold s3v_record.
  change (S3V_MAGIC ++ encode_u32 32 ++ encode_u32 size ++ zeros 20 ++ data)
    with ((S3V_MAGIC ++ encode_u32 32 ++ encode_u32 size ++ zeros 20) ++ data).
  rewrite len_app. reflexivity.
Qed.

Lemma record_len_eq os offset src :
  record_len os offset src
  = S3V0_STRUCT_size + len (copied os (offset + S3V0_STRUCT_size) src (st_size src)).
Proof. unfold record_len, record_of. apply len_s3v_record. Qed.

Lemma pack_entry_eof os src d :
  pack_entry os src (eof d)
  = if st_size src >? 0xFFFFFFFF then (Err FileTooLarge, eof d)
    else if st_size src <? 0 then (Err StructRange, eof d)
    else if (len d >? 0xFFFFFFFF) || (record_len os (len d) src >? 0xFFFFFFFF)
         then (Err ArchiveExceedsLimits, eof (d ++ record_of os (len d) src))
         else (Ok (len d, record_len os (len d) src),
               eof (d ++ record_of os (len d) src)).
Proof.
  unfold pack_entry. rewrite (Z.gtb_ltb (st_size src)).
  destruct (Z.ltb_spec 0xFFFFFFFF (st_size src)) as [Hbig|Hbig]; [reflexivity|].
  unfold bind at 1. rewrite tell_eof.
  unfold bind at 1, lift, S3V0_STRUCT_pack.
  change (pack_u32 32) with (Ok (encode_u32 32)).
  destruct (Z.ltb_spec (st_size src) 0) as [Hneg|Hneg].
  { unfold pack_u32. btest; try lia; reflexivity. }
  rewrite pack_u32_ok by lia.
  unfold bind at 1. rewrite write_eof.
  unfold bind at 1. rewrite copy_appends.
  unfold bind at 1. rewrite tell_eof.
  replace (len (d ++ pack_s 4 S3V_MAGIC ++ encode_u32 32
                  ++ encode_u32 (st_size src) ++ pack_s 20 (zeros 20)))
    with (len d + S3V0_STRUCT_size)
    by (rewrite len_app; reflexivity).
  rewrite <- app_assoc. rewrite <- record_of_split.
  replace (len (d ++ record_of os (len d) src) - len d)
    with (record_len os (len d) src)
    by (rewrite len_app; unfold record_len; lia).
  destruct ((len d >? 4294967295) || (record_len os (len d) src >? 4294967295));
    reflexivity.
Qed.

(** ** The loop over the input files *)

Lemma pack_loop_ok os infiles : ∀ entries d,
  fits os (len d) infiles = true →
  pack_loop os infiles entries (eof d)
  = (Ok (entries ++ layout os (len d) infiles),
     eof (d ++ records os (len d) infiles)).
Proof.
  induction infiles as [|src rest IH]; intros entries d Hfit.
  - simpl. rewrite !app_nil_r. reflexivity.
  - cbn [fits] in Hfit. rewrite !andb_true_iff in Hfit.
    destruct Hfit as ((((H0 & H1) & H2) & H3) & H4).
    cbn [pack_loop]. unfold bind. rewrite pack_entry_eof.
    rewrite !Z.gtb_ltb.
    btest; try lia. simpl orb. cbv iota.
    rewrite IH by (rewrite len_app; exact H4).
    cbn [layout records]. rewrite len_app.
    fold (record_len os (len d) src). rewrite <- !app_assoc. reflexivity.
Qed.

Lemma pack_entry_size_limit os src d e f :
  pack_entry os src (eof d) = (Err e, f) → is_size_limit e = true.
Proof.
  rewrite pack_entry_eof.
  repeat match goal with
         | |- context [ if ?c then _ else _ ] => destruct c
         end; intros [= <- <-]; reflexivity.
Qed.

Lemma pack_loop_fail os infiles : ∀ entries d,
  fits os (len d) infiles = false →
  ∃ e f, pack_loop os infiles entries (eof d) = (Err e, f)
         ∧ is_size_limit e = true.
Proof.
  induction infiles as [|src rest IH]; intros entries d Hfit; [discriminate|].
  cbn [pack_loop]. unfold bind.
  destruct (pack_entry os src (eof d)) as [[entry|e] f] eqn:Hentry.
  - rewrite pack_entry_eof in Hentry. rewrite !Z.gtb_ltb in Hentry.
    cbn [fits] in Hfit.
    destruct (Z.ltb_spec 4294967295 (st_size src)); [discriminate|].
    destruct (Z.ltb_spec (st_size src) 0); [discriminate|].
    destruct (Z.ltb_spec 4294967295 (len d)); [discriminate|].
    destruct (Z.ltb_spec 4294967295 (record_len os (len d) src)); [discriminate|].
    simpl in Hentry. injection Hentry as <- <-.
    apply IH. rewrite len_app. fold (record_len os (len d) src).
    revert Hfit. btest; try lia. simpl. auto.
  - exists e, f. split; [reflexivity|].
    eapply pack_entry_size_limit. exact Hentry.
Qed.

(** A file too large stops the loop where it finds the output file: the
    run ends as the loop over the files before it ends. *)
Lemma pack_loop_too_large os pre src post : ∀ entries f,
  st_size src > 0xFFFFFFFF →
  pack_loop os (pre ++ src :: post) entries f
  = match pack_loop os pre entries f with
    | (Ok _, f') => (Err FileTooLarge, f')
    | (Err e, f') => (Err e, f')
    end.
Proof.
  induction pre as [|a pre IH]; intros entries f Hbig.
  - cbn [app pack_loop ret]. unfold bind, pack_entry.
    rewrite Z.gtb_ltb. btest; try lia. reflexivity.
  - cbn [app pack_loop]. unfold bind.
    destruct (pack_entry os a f) as [[entry|e] f']; [|reflexivity].
    apply IH. exact Hbig.
Qed.

(** ** The entry table *)

Lemma fill_table_ok entries : ∀ done i,
  Forall u32_row entries → len done = i * ENTRY_STRUCT_size →
  fill_table (done ++ replicate (8 * length entries) x00) i entries
  = Ok (done ++ concat (map encode_entry entries)).
Proof.
  unfold ENTRY_STRUCT_size.
  induction entries as [|[off ln] rest IH]; intros done i Hrows Hdone.
  - reflexivity.
  - inversion Hrows as [|? ? [Hoff Hln] Hrest]; subst. simpl in Hoff, Hln.
    pose proof (len_nonneg done) as Hnn.
    cbn [fill_table]. unfold ENTRY_STRUCT_pack_into, ENTRY_STRUCT_size.
    rewrite unpack_window_ok;
      [|lia|rewrite len_app; unfold len at 2; rewrite length_replicate;
            cbn [length]; lia].
    unfold ENTRY_STRUCT_pack. rewrite !pack_u32_ok by lia.
    replace (Z.to_nat (i * 8)) with (length done) by (unfold len in Hdone; lia).
    rewrite take_app_length.
    rewrite length_app, !length_encode_u32.
    rewrite drop_app_add, drop_replicate.
    replace (8 * length ((off, ln) :: rest) - (4 + 4))%nat
      with (8 * length rest)%nat by (cbn [length]; lia).
    replace (done ++ (encode_u32 off ++ encode_u32 ln)
             ++ replicate (8 * length rest) x00)
      with ((done ++ encode_entry (off, ln)) ++ replicate (8 * length rest) x00)
      by (unfold encode_entry; simpl; rewrite <- !app_assoc; reflexivity).
    rewrite IH; [|exact Hrest|].
    + cbn [map concat]. rewrite <- app_assoc. reflexivity.
    + rewrite len_app. unfold len at 2, encode_entry.
      rewrite length_app, !length_encode_u32. lia.
Qed.

Lemma record_len_min os offset src : S3V0_STRUCT_size <= record_len os offset src.
Proof.
  rewrite record_len_eq.
  pose proof (len_nonneg (copied os (offset + S3V0_STRUCT_size) src (st_size src))).
  lia.
Qed.

Lemma fits_layout_rows os infiles : ∀ base,
  0 <= base → fits os base infiles = true → Forall u32_row (layout os base infiles).
Proof.
  induction infiles as [|src rest IH]; intros base Hb Hfit; [constructor|].
  cbn [fits] in Hfit. rewrite !andb_true_iff in Hfit.
  destruct Hfit as ((((H0 & H1) & H2) & H3) & H4).
  pose proof (record_len_min os base src) as Hmin. unfold S3V0_STRUCT_size in Hmin.
  cbn [layout]. constructor.
  - unfold u32_row. simpl. lia.
  - apply IH; [lia|exact H4].
Qed.

Lemma length_layout os infiles : ∀ base,
  length (layout os base infiles) = length infiles.
Proof. induction infiles; intros; simpl; auto. Qed.

Lemma len_layout os base infiles : len (layout os base infiles) = len infiles.
Proof. unfold len. rewrite length_layout. reflexivity. Qed.

(** ** The whole archive *)

Lemma pack_begin_ok os count pre :
  0 <= count <= 0xFFFFFFFF →
  fits os (HEADER_STRUCT_size + ENTRY_STRUCT_size * count) pre = true →
  pack_begin os count pre new_file
  = (Ok (layout os (HEADER_STRUCT_size + ENTRY_STRUCT_size * count) pre),
     eof ((S3P_MAGIC ++ encode_u32 count)
          ++ zeros (ENTRY_STRUCT_size * count)
          ++ records os (HEADER_STRUCT_size + ENTRY_STRUCT_size * count) pre)).
Proof.
  intros Hc Hfit. unfold pack_begin.
  unfold bind at 1, lift, HEADER_STRUCT_pack. rewrite pack_u32_ok by exact Hc.
  change new_file with (eof []).
  unfold bind at 1. rewrite write_eof.
  unfold bind at 1. rewrite write_eof.
  assert (Hlen : len (([] ++ pack_s 4 S3P_MAGIC ++ encode_u32 count)
                      ++ zeros (ENTRY_STRUCT_size * count))
                 = HEADER_STRUCT_size + ENTRY_STRUCT_size * count).
  { rewrite len_app, len_zeros by (unfold ENTRY_STRUCT_size; lia). reflexivity. }
  rewrite pack_loop_ok by (rewrite Hlen; exact Hfit).
  rewrite Hlen. cbn [app]. rewrite <- app_assoc. reflexivity.
Qed.

Lemma pack_ok os infiles :
  packable os infiles = true →
  run_pack os infiles
  = (Ok tt, {| fdata := archive_of os infiles;
               fpos := Z.to_nat (body_start infiles) |}).
Proof.
  unfold packable. rewrite andb_true_iff. intros [Hn Hfit].
  apply Z.leb_le in Hn. pose proof (len_nonneg infiles) as Hnn.
  assert (Hbegin := pack_begin_ok os (len infiles) infiles (conj Hnn Hn) Hfit).
  unfold pack_begin in Hbegin.
  unfold run_pack, pack.
  unfold bind at 1 in Hbegin. unfold bind at 1.
  destruct (lift (HEADER_STRUCT_pack S3P_MAGIC (len infiles)) new_file)
    as [[hdr|e] f0]; [|discriminate].
  unfold bind at 1 in Hbegin. unfold bind at 1.
  destruct (write hdr f0) as [[[]|e] f1]; [|discriminate].
  unfold bind at 1 in Hbegin. unfold bind at 1.
  destruct (write (zeros (ENTRY_STRUCT_size * len infiles)) f1)
    as [[[]|e] f2]; [|discriminate].
  unfold bind at 1. rewrite Hbegin.
  unfold bind at 1, lift. change (pack_u32 END_MARKER) with (Ok (encode_u32 END_MARKER)).
  unfold bind at 1. rewrite write_eof.
  unfold bind at 1, seek, modify. cbn [fdata eof].
  unfold bind at 1, lift.
  replace (zeros (ENTRY_STRUCT_size * len infiles))
    with ([] ++ replicate (8 * length (layout os (body_start infiles) infiles)) x00).
  2:{ rewrite length_layout. unfold zeros, ENTRY_STRUCT_size, len. simpl.
      f_equal. lia. }
  fold (body_start infiles).
  rewrite fill_table_ok;
    [|apply fits_layout_rows;
        [unfold body_start, HEADER_STRUCT_size, ENTRY_STRUCT_size; lia|exact Hfit]
     |reflexivity].
  assert (Htab : length (concat (map encode_entry (layout os (body_start infiles) infiles)))
                 = (8 * length infiles)%nat).
  { rewrite <- (length_layout os infiles (body_start infiles)).
    induction (layout os (body_start infiles) infiles) as [|e l IHl]; [reflexivity|].
    cbn [map concat length]. rewrite length_app, IHl.
    unfold encode_entry. rewrite length_app, !length_encode_u32. lia. }
  unfold write, modify. cbn [fdata fpos app]. f_equal. f_equal.
  - unfold archive_of.
    rewrite Htab, length_layout.
    change (Z.to_nat HEADER_STRUCT_size)
      with (length (S3P_MAGIC ++ encode_u32 (len infiles))).
    set (H := S3P_MAGIC ++ encode_u32 (len infiles)).
    rewrite <- !app_assoc.
    rewrite take_app_length.
    replace (length H - length (H ++ replicate (8 * length infiles) x00
                                ++ records os (body_start infiles) infiles
                                ++ encode_u32 END_MARKER))%nat
      with 0%nat by (rewrite length_app; lia).
    cbn [replicate app]. f_equal. f_equal.
    rewrite drop_app_add.
    replace (8 * length infiles)%nat
      with (length (replicate (8 * length infiles) x00) + 0)%nat at 1
      by (rewrite length_replicate; lia).
    rewrite drop_app_add. reflexivity.
  - rewrite Htab.
    unfold body_start, HEADER_STRUCT_size, ENTRY_STRUCT_size, len. lia.
Qed.

(** ** Size limits *)

Lemma fits_file_too_large os infiles : ∀ base src,
  src ∈ infiles → st_size src > 0xFFFFFFFF → fits os base infiles = false.
Proof.
  induction infiles as [|a rest IH]; intros base src Hin Hbig.
  - inversion Hin.
  - cbn [fits]. apply elem_of_cons in Hin as [<-|Hin].
    + btest; try lia; reflexivity.
    + rewrite (IH _ src Hin Hbig). apply andb_false_r.
Qed.

Lemma fits_row_too_large os infiles : ∀ base row,
  row ∈ layout os base infiles → row.1 > 0xFFFFFFFF ∨ row.2 > 0xFFFFFFFF →
  fits os base infiles = false.
Proof.
  induction infiles as [|a rest IH]; intros base row Hin Hbig.
  - inversion Hin.
  - cbn [fits]. cbn [layout] in Hin. apply elem_of_cons in Hin as [->|Hin].
    + simpl in Hbig. btest; try lia; reflexivity.
    + rewrite (IH _ row Hin Hbig). apply andb_false_r.
Qed.

Lemma pack_fail os infiles :
  packable os infiles = false →
  ∃ e f, run_pack os infiles = (Err e, f) ∧ is_size_limit e = true.
Proof.
  unfold packable. intros Hp. pose proof (len_nonneg infiles) as Hnn.
  unfold run_pack, pack.
  destruct (Z.leb_spec (len infiles) 0xFFFFFFFF) as [Hn|Hn].
  - simpl in Hp.
    unfold bind at 1, lift, HEADER_STRUCT_pack. rewrite pack_u32_ok by lia.
    change new_file with (eof []).
    unfold bind at 1. rewrite write_eof.
    unfold bind at 1. rewrite write_eof.
    unfold bind at 1.
    destruct (pack_loop_fail os infiles []
                (([] ++ pack_s 4 S3P_MAGIC ++ encode_u32 (len infiles))
                 ++ zeros (ENTRY_STRUCT_size * len infiles)))
      as (e & f & Hrun & He).
    + rewrite <- Hp. f_equal.
      rewrite len_app, len_zeros by (unfold ENTRY_STRUCT_size; lia).
      reflexivity.
    + rewrite Hrun. eauto.
  - exists StructRange, new_file. split; [|reflexivity].
    unfold bind at 1, lift, HEADER_STRUCT_pack. unfold pack_u32 at 1.
    destruct (Z.leb_spec 0 (len infiles)); destruct (Z.leb_spec (len infiles) 0xFFFFFFFF);
      try lia; reflexivity.
Qed.

Lemma pack_stops_at_too_large os pre src post :
  st_size src > 0xFFFFFFFF →
  (run_pack os (pre ++ src :: post)).2
  = (pack_begin os (len (pre ++ src :: post)) pre new_file).2.
Proof.
  intros Hbig. unfold run_pack, pack, pack_begin.
  set (n := len (pre ++ src :: post)).
  unfold bind.
  destruct (lift (HEADER_STRUCT_pack S3P_MAGIC n) new_file)
    as [[hdr|e] f0]; [|reflexivity].
  destruct (write hdr f0) as [[[]|e] f1]; [|reflexivity].
  destruct (write (zeros (ENTRY_STRUCT_size * n)) f1) as [[[]|e] f2];
    [|reflexivity].
  rewrite pack_loop_too_large by exact Hbig.
  destruct (pack_loop os pre [] f2) as [[entries|e] f3]; reflexivity.
Qed.

(** C7. Packing fails with a size-limit error whenever a source file's
    size, or an entry offset or length of the layout, exceeds 0xFFFFFFFF.
    When the file reported as too large is reached, the run stops with the
    output file as it stood when that file's turn came: nothing of its
    payload record is written, and if the files before it fit, the output
    is the header, the zero-filled table and their records. This holds on
    every platform, whatever os.sendfile does. *)
Theorem C7_size_limit os infiles :
  ((∃ src, src ∈ infiles ∧ st_size src > 0xFFFFFFFF)
   ∨ (∃ row, row ∈ layout os (body_start infiles) infiles
             ∧ (row.1 > 0xFFFFFFFF ∨ row.2 > 0xFFFFFFFF)) →
   ∃ e, (run_pack os infiles).1 = Err e ∧ is_size_limit e = true)
  ∧ (∀ pre src post,
       infiles = pre ++ src :: post → st_size src > 0xFFFFFFFF →
       (run_pack os infiles).2 = (pack_begin os (len infiles) pre new_file).2
       ∧ (len infiles <= 0xFFFFFFFF → fits os (body_start infiles) pre = true →
          (run_pack os infiles).1 = Err FileTooLarge
          ∧ fdata (run_pack os infiles).2
            = (S3P_MAGIC ++ encode_u32 (len infiles))
              ++ zeros (ENTRY_STRUCT_size * len infiles)
              ++ records os (body_start infiles) pre)).
Proof.
  split.
  - intros H.
    assert (Hp : packable os infiles = false).
    { unfold packable. destruct H as [(src & Hin & Hbig)|(row & Hin & Hbig)].
      - rewrite (fits_file_too_large _ _ _ src Hin Hbig). apply andb_false_r.
      - rewrite (fits_row_too_large _ _ _ row Hin Hbig). apply andb_false_r. }
    destruct (pack_fail os infiles Hp) as (e & f & Hrun & He).
    exists e. rewrite Hrun. auto.
  - intros pre src post -> Hbig. split.
    + apply pack_stops_at_too_large. exact Hbig.
    + intros Hn Hfit. pose proof (len_nonneg (pre ++ src :: post)) as Hnn.
      pose proof (pack_begin_ok os (len (pre ++ src :: post)) pre (conj Hnn Hn) Hfit)
        as Hbegin.
      split.
      * unfold run_pack, pack. unfold pack_begin in Hbegin.
        unfold bind at 1. unfold bind at 1 in Hbegin.
        destruct (lift (HEADER_STRUCT_pack S3P_MAGIC (len (pre ++ src :: post)))
                    new_file) as [[hdr|e] f0]; [|discriminate].
        unfold bind at 1. unfold bind at 1 in Hbegin.
        destruct (write hdr f0) as [[[]|e] f1]; [|discriminate].
        unfold bind at 1. unfold bind at 1 in Hbegin.
        destruct (write (zeros (ENTRY_STRUCT_size * len (pre ++ src :: post))) f1)
          as [[[]|e] f2]; [|discriminate].
        unfold bind at 1.
        rewrite pack_loop_too_large by exact Hbig. rewrite Hbegin. reflexivity.
      * rewrite pack_stops_at_too_large by exact Hbig.
        rewrite Hbegin. reflexivity.
Qed.

Lemma C7_size_limit_witness :
  (∃ e, (run_pack os_two_then_broken [file_a; huge_file]).1 = Err e
        ∧ is_size_limit e = true)
  ∧ (run_pack os_two_then_broken [file_a; huge_file]).1 = Err FileTooLarge
  ∧ fdata (run_pack os_two_then_broken [file_a; huge_file]).2
    = (S3P_MAGIC ++ encode_u32 2) ++ zeros 16
      ++ records os_two_then_broken (body_start [file_a; huge_file]) [file_a].
Proof.
  split.
  - apply (proj1 (C7_size_limit os_two_then_broken [file_a; huge_file])).
    left. exists huge_file. split; [repeat constructor|reflexivity].
  - exact (proj2 (proj2 (C7_size_limit os_two_then_broken [file_a; huge_file])
                          [file_a] huge_file [] eq_refl eq_refl)
                   ltac:(vm_compute; discriminate) eq_refl).
Defined.

(** ** Output file names *)

Lemma string_length_app s t :
  String.length (s +:+ t) = (String.length s + String.length t)%nat.
Proof. induction s as [|c s IH]; simpl; [reflexivity|]. rewrite IH. reflexivity. Qed.

Lemma string_app_inj_r t : ∀ s1 s2, s1 +:+ t = s2 +:+ t → s1 = s2.
Proof.
  induction s1 as [|c1 s1 IH]; intros [|c2 s2] Heq; simpl in Heq.
  - reflexivity.
  - apply (f_equal String.length) in Heq.
    rewrite !string_length_app in Heq. simpl in Heq. lia.
  - apply (f_equal String.length) in Heq.
    rewrite !string_length_app in Heq. simpl in Heq. lia.
  - injection Heq as -> Heq. f_equal. apply IH. exact Heq.
Qed.

Lemma strip0_pad0 k s : strip0 (pad0 k s) = strip0 s.
Proof. induction k as [|k IH]; simpl; [reflexivity|exact IH]. Qed.

(** A positive number is printed with a leading digit other than 0. *)
Lemma pretty_N_go_head (x : N) : ∀ s,
  (0 < x)%N → ∃ c s', pretty_N_go x s = String c s' ∧ c ≠ "0"%char.
Proof.
  induction (N.lt_wf_0 x) as [x _ IH]. intros s Hx.
  rewrite pretty_N_go_step by exact Hx.
  destruct (N.eq_dec (x / 10)%N 0%N) as [Hq|Hq].
  - rewrite Hq, pretty_N_go_0. eexists _, _. split; [reflexivity|].
    assert (Hlt : (x < 10)%N).
    { pose proof (N.div_mod x 10%N ltac:(lia)) as Hdm.
      pose proof (N.mod_lt x 10%N ltac:(lia)) as Hm. rewrite Hq in Hdm. lia. }
    rewrite N.mod_small by exact Hlt.
    change "0"%char with (pretty_N_char 0). intros Hc.
    apply pretty_N_char_inj in Hc; lia.
  - apply IH; [apply N.div_lt; lia|apply N.neq_0_lt_0; exact Hq].
Qed.

Lemma strip0_zfill_pretty (i : nat) :
  (1 <= i)%nat → strip0 (zfill 4 (pretty i)) = pretty i.
Proof.
  intros Hi. unfold zfill. rewrite strip0_pad0.
  unfold pretty, pretty_nat, pretty, pretty_N.
  destruct (decide (N.of_nat i = 0%N)) as [H0|H0]; [lia|].
  destruct (pretty_N_go_head (N.of_nat i) "" ltac:(lia)) as (c & s' & -> & Hc).
  simpl. destruct (decide (c = "0"%char)); [contradiction|reflexivity].
Qed.

Lemma wav_name_inj (i j : nat) :
  (1 <= i)%nat → (1 <= j)%nat → wav_name i = wav_name j → i = j.
Proof.
  intros Hi Hj Heq. unfold wav_name in Heq.
  apply string_app_inj_r in Heq.
  apply (f_equal strip0) in Heq.
  rewrite !strip0_zfill_pretty in Heq by assumption.
  apply (inj pretty) in Heq. exact Heq.
Qed.

(** ** Reading back what the packer wrote *)

Lemma bytes_range_app (pre mid post : list byte) a b :
  0 <= a → a <= b → b <= len mid →
  bytes_range (pre ++ mid ++ post) (len pre + a) (len pre + b)
  = bytes_range mid a b.
Proof.
  intros Ha Hab Hb. unfold bytes_range, len in *.
  replace (Z.to_nat (Z.of_nat (length pre) + a))
    with (length pre + Z.to_nat a)%nat by lia.
  replace (Z.of_nat (length pre) + b - (Z.of_nat (length pre) + a))
    with (b - a) by lia.
  rewrite drop_app_add.
  rewrite drop_app_le by lia.
  rewrite take_app_le by (rewrite length_drop; lia).
  reflexivity.
Qed.

Lemma entry_rows_encode rows :
  Forall u32_row rows → entry_rows (concat (map encode_entry rows)) = rows.
Proof.
  induction 1 as [|[off ln] rows [Hoff Hln] _ IH]; [reflexivity|].
  simpl in Hoff, Hln.
  cbn [map concat]. unfold encode_entry at 1. cbn [fst snd].
  unfold encode_u32 at 1 2. cbn [app entry_rows].
  fold (encode_u32 off). fold (encode_u32 ln).
  rewrite !decode_encode_u32 by lia. rewrite IH. reflexivity.
Qed.

Lemma length_encode_table rows :
  len (concat (map encode_entry rows)) = ENTRY_STRUCT_size * len rows.
Proof.
  unfold ENTRY_STRUCT_size, len.
  induction rows as [|e rows IH]; [reflexivity|].
  cbn [map concat length]. rewrite length_app.
  unfold encode_entry at 1. rewrite length_app, !length_encode_u32. lia.
Qed.

Lemma record_at pre size data rest :
  let mm := pre ++ s3v_record size data ++ rest in
  bounds_valid mm (len pre) (len (s3v_record size data))
  ∧ stored_magic mm (len pre) = S3V_MAGIC
  ∧ stored_header_size mm (len pre) = 32
  ∧ bytes_range mm (len pre + 32) (len pre + len (s3v_record size data)) = data.
Proof.
  intros mm. subst mm.
  pose proof (len_s3v_record size data) as Hrl. unfold S3V0_STRUCT_size in Hrl.
  pose proof (len_nonneg data) as Hdata.
  pose proof (len_nonneg pre) as Hpre.
  pose proof (len_nonneg rest) as Hrest.
  repeat split.
  - exact Hpre.
  - unfold S3V0_STRUCT_size. lia.
  - rewrite !len_app. lia.
  - unfold stored_magic.
    replace (len pre) with (len pre + 0) at 1 by lia.
    rewrite bytes_range_app by lia. reflexivity.
  - unfold stored_header_size.
    rewrite bytes_range_app by lia. reflexivity.
  - rewrite bytes_range_app by lia.
    unfold bytes_range.
    change (drop (Z.to_nat 32) (s3v_record size data)) with data.
    apply take_ge. unfold len in *. lia.
Qed.

Lemma record_fields_at pre size data rest :
  0 <= size <= 0xFFFFFFFF →
  let mm := pre ++ s3v_record size data ++ rest in
  decode_u32 (bytes_range mm (len pre + 8) (len pre + 12)) = size
  ∧ bytes_range mm (len pre + 12) (len pre + 32) = zeros 20.
Proof.
  intros Hsize mm. subst mm.
  pose proof (len_s3v_record size data) as Hrl. unfold S3V0_STRUCT_size in Hrl.
  pose proof (len_nonneg data) as Hdata.
  split.
  - rewrite bytes_range_app by lia.
    change (bytes_range (s3v_record size data) 8 12) with (encode_u32 size).
    apply decode_encode_u32. exact Hsize.
  - rewrite bytes_range_app by lia. reflexivity.
Qed.

Lemma extract_loop_layout os out_dir srcs : ∀ pre post i w,
  ∃ w',
    extract_loop (pre ++ records os (len pre) srcs ++ post) out_dir i
      (layout os (len pre) srcs) w = (Ok tt, w')
    ∧ files w' = written os (len pre) out_dir i srcs (files w).
Proof.
  induction srcs as [|src rest IH]; intros pre post i w.
  - exists w. split; reflexivity.
  - cbn [records layout extract_loop written].
    rewrite <- (app_assoc (record_of os (len pre) src)).
    unfold record_len, record_of.
    set (data := copied os (len pre + S3V0_STRUCT_size) src (st_size src)).
    destruct (record_at pre (st_size src) data
                (records os (len pre + len (s3v_record (st_size src) data)) rest
                 ++ post))
      as (Hb & Hm & Hs & Hp).
    unfold bind.
    rewrite extract_one_accept; [|exact Hb|exact Hm|rewrite Hs].
    2:{ pose proof (len_s3v_record (st_size src) data).
        pose proof (len_nonneg data). unfold S3V0_STRUCT_size in *. lia. }
    rewrite Hs, Hp.
    rewrite (app_assoc pre (s3v_record (st_size src) data)).
    replace (len pre + len (s3v_record (st_size src) data))
      with (len (pre ++ s3v_record (st_size src) data))
      by (rewrite len_app; reflexivity).
    match goal with
    | |- context [ extract_loop _ _ _ _ ?w1 ] =>
        destruct (IH (pre ++ s3v_record (st_size src) data) post (S i) w1)
          as (w' & Hrun & Hfiles)
    end.
    exists w'. split; [exact Hrun|]. rewrite Hfiles. reflexivity.
Qed.

(** ** The files written *)

Lemma out_file_inj (out_dir : Path) (i j : nat) :
  (1 <= i)%nat → (1 <= j)%nat →
  out_dir ++ [wav_name i] = out_dir ++ [wav_name j] → i = j.
Proof.
  intros Hi Hj Heq. apply app_inv_head in Heq. injection Heq as Heq.
  apply wav_name_inj; assumption.
Qed.

Lemma written_lookup_other os out_dir srcs : ∀ base i m key,
  (∀ j, (i <= j)%nat → key ≠ out_dir ++ [wav_name j]) →
  written os base out_dir i srcs m !! key = m !! key.
Proof.
  induction srcs as [|src rest IH]; intros base i m key Hkey; [reflexivity|].
  cbn [written]. rewrite IH by (intros j Hj; apply Hkey; lia).
  apply lookup_insert_ne. intros Heq. apply (Hkey i); [lia|]. symmetry. exact Heq.
Qed.

(** The file of entry k holds what was copied into the k-th record. *)
Lemma written_lookup os out_dir srcs : ∀ base i m k src,
  (1 <= i)%nat → srcs !! k = Some src →
  written os base out_dir i srcs m !! (out_dir ++ [wav_name (i + k)])
  = Some (copied os (base + len (records os base (take k srcs))
                     + S3V0_STRUCT_size) src (st_size src)).
Proof.
  induction srcs as [|a rest IH]; intros base i m k src Hi Hk; [discriminate|].
  cbn [written]. destruct k as [|k].
  - injection Hk as ->. rewrite Nat.add_0_r.
    rewrite written_lookup_other.
    + rewrite lookup_insert_eq. cbn [take records]. unfold len at 1. simpl.
      rewrite Z.add_0_r. reflexivity.
    + intros j Hj Heq. apply out_file_inj in Heq; lia.
  - replace (i + S k)%nat with (S i + k)%nat by lia.
    simpl in Hk. rewrite (IH _ _ _ _ src) by (lia || exact Hk).
    cbn [take records]. rewrite len_app. fold (record_len os base a).
    do 2 f_equal. lia.
Qed.

Lemma written_size os out_dir srcs : ∀ base i m,
  (1 <= i)%nat →
  (∀ j, (i <= j)%nat → m !! (out_dir ++ [wav_name j]) = None) →
  size (written os base out_dir i srcs m) = (size m + length srcs)%nat.
Proof.
  induction srcs as [|a rest IH]; intros base i m Hi Hfree.
  - simpl. lia.
  - cbn [written length]. rewrite IH.
    + rewrite map_size_insert_None by (apply Hfree; lia). lia.
    + lia.
    + intros j Hj. rewrite lookup_insert_ne; [apply Hfree; lia|].
      intros Heq. apply out_file_inj in Heq; lia.
Qed.

(** ** Extracting what was packed *)

Lemma len_archive_of os infiles :
  len (archive_of os infiles)
  = body_start infiles + len (records os (body_start infiles) infiles) + 4.
Proof.
  unfold archive_of. rewrite !len_app, length_encode_table, len_layout.
  change (len S3P_MAGIC) with 4. change (len (encode_u32 (len infiles))) with 4.
  change (len (encode_u32 END_MARKER)) with 4.
  unfold body_start, HEADER_STRUCT_size, ENTRY_STRUCT_size. lia.
Qed.

(** The header and table of what [pack] writes, read back, with anything
    at all after the records. *)
Lemma packed_table os infiles trailer :
  packable os infiles = true →
  let mm := (S3P_MAGIC ++ encode_u32 (len infiles))
            ++ concat (map encode_entry (layout os (body_start infiles) infiles))
            ++ records os (body_start infiles) infiles
            ++ trailer in
  HEADER_STRUCT_size <= len mm ∧ archive_magic mm = S3P_MAGIC
  ∧ stored_entry_count mm = len infiles
  ∧ table_end mm = body_start infiles ∧ table_end mm <= len mm
  ∧ entry_table mm = layout os (body_start infiles) infiles.
Proof.
  intros Hp mm. unfold packable in Hp.
  apply andb_true_iff in Hp. destruct Hp as [Hn Hfit].
  apply Z.leb_le in Hn. pose proof (len_nonneg infiles) as Hnn.
  pose proof (len_nonneg (records os (body_start infiles) infiles)) as Hrec.
  pose proof (len_nonneg trailer) as Htr.
  set (H := S3P_MAGIC ++ encode_u32 (len infiles)) in *.
  set (T := concat (map encode_entry (layout os (body_start infiles) infiles))) in *.
  set (R := records os (body_start infiles) infiles) in *.
  assert (HT : len T = len infiles * 8).
  { subst T. rewrite length_encode_table, len_layout.
    unfold ENTRY_STRUCT_size. lia. }
  assert (Hbody : body_start infiles = 8 + len infiles * 8)
    by (unfold body_start, HEADER_STRUCT_size, ENTRY_STRUCT_size; lia).
  assert (Hlen : len mm = body_start infiles + len R + len trailer).
  { subst mm. rewrite !len_app, HT, Hbody. change (len H) with 8. lia. }
  assert (Hcount : stored_entry_count mm = len infiles).
  { unfold stored_entry_count.
    change (bytes_range mm 4 8) with (encode_u32 (len infiles)).
    apply decode_encode_u32. lia. }
  assert (Hend : table_end mm = body_start infiles).
  { unfold table_end. rewrite Hcount.
    unfold body_start, HEADER_STRUCT_size, ENTRY_STRUCT_size. lia. }
  repeat split.
  - unfold HEADER_STRUCT_size. lia.
  - exact Hcount.
  - exact Hend.
  - rewrite Hend. lia.
  - unfold entry_table. rewrite Hend. subst mm.
    replace (bytes_range (H ++ T ++ R ++ trailer)
               HEADER_STRUCT_size (body_start infiles))
      with (bytes_range (H ++ T ++ R ++ trailer) (len H + 0) (len H + len T))
      by (rewrite HT, Hbody; reflexivity).
    rewrite bytes_range_app by lia.
    unfold bytes_range. rewrite Z.sub_0_r.
    change (Z.to_nat 0) with 0%nat. rewrite drop_0.
    rewrite take_ge by (unfold len; lia).
    apply entry_rows_encode. apply fits_layout_rows; [lia|exact Hfit].
Qed.

Lemma convert_packed os path infiles trailer w :
  packable os infiles = true →
  ∃ w', convert path ((S3P_MAGIC ++ encode_u32 (len infiles))
                      ++ concat (map encode_entry
                                   (layout os (body_start infiles) infiles))
                      ++ records os (body_start infiles) infiles
                      ++ trailer) w = (Ok tt, w')
        ∧ files w' = written os (body_start infiles) (out_dir_of path) 1
                       infiles (files w).
Proof.
  intros Hp.
  pose proof (packed_table os infiles trailer Hp) as Htab. cbv zeta in Htab.
  destruct Htab as (Hlen & Hm & Hcount & Hend & Hendle & Htable).
  rewrite convert_entries by assumption.
  rewrite Htable.
  set (H := S3P_MAGIC ++ encode_u32 (len infiles)).
  set (T := concat (map encode_entry (layout os (body_start infiles) infiles))).
  assert (HHT : len (H ++ T) = body_start infiles).
  { subst T. rewrite len_app, length_encode_table, len_layout.
    change (len H) with 8.
    unfold body_start, HEADER_STRUCT_size, ENTRY_STRUCT_size. lia. }
  match goal with
  | |- context [ extract_loop _ _ _ _ ?w1 ] =>
      destruct (extract_loop_layout os (out_dir_of path) infiles (H ++ T)
                  trailer 1 w1) as (w' & Hrun & Hfiles)
  end.
  rewrite HHT in Hrun, Hfiles.
  exists w'. split; [|exact Hfiles].
  rewrite <- Hrun. rewrite <- !app_assoc. reflexivity.
Qed.

Lemma convert_archive_of os path infiles w :
  packable os infiles = true →
  ∃ w', convert path (archive_of os infiles) w = (Ok tt, w')
        ∧ files w' = written os (body_start infiles) (out_dir_of path) 1
                       infiles (files w).
Proof. apply convert_packed. Qed.

(** [pack] succeeds exactly on the inputs that fit the format. *)
Lemma pack_succeeds_iff os infiles :
  (run_pack os infiles).1 = Ok tt ↔ packable os infiles = true.
Proof.
  split.
  - intros Hrun. destruct (packable os infiles) eqn:Hp; [reflexivity|].
    destruct (pack_fail os infiles Hp) as (e & f & Hfail & _).
    rewrite Hfail in Hrun. discriminate.
  - intros Hp. rewrite pack_ok by exact Hp. reflexivity.
Qed.

(** C1. Round trip. On a platform where os.sendfile is absent or, if it
    raises OSError at all, raises it at the first call of a copy, for
    every ordered list of input files whose sizes are reported accurately
    and which fits the format, packing yields an archive, and extracting
    that archive from an empty world succeeds and leaves exactly one
    output file per input: entry i (numbered from 1) is the file NNNN.wav
    of the output directory and holds the bytes of the i-th input. *)
Theorem C1_round_trip os path infiles :
  os_reliable os →
  Forall stat_accurate infiles →
  packable os infiles = true →
  ∃ out,
    run_pack os infiles = (Ok tt, out)
    ∧ let run := convert path (fdata out) empty_world in
      run.1 = Ok tt
      ∧ (∀ i src, infiles !! i = Some src →
           files run.2 !! (out_dir_of path ++ [wav_name (S i)])
           = Some (content src))
      ∧ size (files run.2) = length infiles.
Proof.
  intros Hos Hstat Hp. eexists. split; [apply pack_ok; exact Hp|].
  cbn [fdata].
  destruct (convert_archive_of os path infiles empty_world Hp)
    as (w' & Hrun & Hfiles).
  rewrite Hrun. cbn [fst snd]. split; [reflexivity|]. split.
  - intros i src Hi. rewrite Hfiles.
    change (S i) with (1 + i)%nat.
    rewrite (written_lookup _ _ _ _ _ _ _ src) by (lia || exact Hi).
    rewrite copied_reliable; [reflexivity|exact Hos|].
    eapply Forall_lookup_1; [exact Hstat|exact Hi].
  - rewrite Hfiles. rewrite written_size.
    + simpl. rewrite map_size_empty. lia.
    + lia.
    + intros j _. apply lookup_empty.
Qed.

Lemma C1_round_trip_witness :
  ∃ out,
    run_pack os_all_at_once [file_a; file_b] = (Ok tt, out)
    ∧ let run := convert ["out.s3p"%string] (fdata out) empty_world in
      run.1 = Ok tt
      ∧ (∀ i src, [file_a; file_b] !! i = Some src →
           files run.2 !! (out_dir_of ["out.s3p"%string] ++ [wav_name (S i)])
           = Some (content src))
      ∧ size (files run.2) = length [file_a; file_b].
Proof.
  apply (C1_round_trip os_all_at_once ["out.s3p"%string] [file_a; file_b]).
  - intros _ pos call _. discriminate.
  - repeat constructor.
  - reflexivity.
Defined.

(** On reliable platforms, files whose sizes are reported accurately are
    laid out the same way. *)
Lemma layout_reliable os os' infiles : ∀ base,
  os_reliable os → os_reliable os' → Forall stat_accurate infiles →
  records os base infiles = records os' base infiles
  ∧ layout os base infiles = layout os' base infiles
  ∧ fits os base infiles = fits os' base infiles.
Proof.
  intros base Hos Hos' Hstat. revert base.
  induction Hstat as [|src rest Hsrc _ IH]; intros base; [repeat split|].
  assert (Hrec : ∀ b, record_of os b src = record_of os' b src).
  { intros b. unfold record_of. rewrite !copied_reliable by assumption.
    reflexivity. }
  assert (Hlen : ∀ b, record_len os b src = record_len os' b src)
    by (intros b; unfold record_len; rewrite Hrec; reflexivity).
  cbn [records layout fits]. rewrite Hrec, Hlen.
  destruct (IH (base + record_len os' base src)) as (-> & -> & ->).
  repeat split.
Qed.

Lemma run_pack_reliable os os' infiles :
  os_reliable os → os_reliable os' → Forall stat_accurate infiles →
  packable os' infiles = true →
  run_pack os infiles = run_pack os' infiles.
Proof.
  intros Hos Hos' Hstat Hp.
  destruct (layout_reliable os os' infiles (body_start infiles) Hos Hos' Hstat)
    as (Hr & Hl & Hf).
  assert (Hp' : packable os infiles = true)
    by (unfold packable in *; rewrite Hf; exact Hp).
  rewrite !pack_ok by assumption.
  unfold archive_of. rewrite Hr, Hl. reflexivity.
Qed.

Lemma no_sendfile_reliable : os_reliable no_sendfile.
Proof. intros H. discriminate. Qed.

(** C9. On a platform where os.sendfile is absent or, if it raises OSError
    at all, raises it at the first call of a copy: packing a 3-byte and a
    5-byte file gives an archive that starts with "S3P0" and the
    little-endian word 2, whose entry table is the two 8-byte rows (24, 35)
    and (59, 37) filling bytes 8 to 24, and whose extraction writes
    0001.wav with the three bytes of the first input and 0002.wav with the
    five bytes of the second, and nothing else. *)
Theorem C9_scenario os (a b : list byte) :
  os_reliable os →
  length a = 3%nat → length b = 5%nat →
  ∃ out,
    run_pack os [ {| st_size := 3; content := a |};
                  {| st_size := 5; content := b |} ] = (Ok tt, out)
    ∧ take 8 (fdata out) = [x53; x33; x50; x30; x02; x00; x00; x00]
    ∧ table_end (fdata out) = 8 + 2 * 8
    ∧ entry_table (fdata out) = [(24, 35); (59, 37)]
    ∧ let run := convert ["out.s3p"%string] (fdata out) empty_world in
      run.1 = Ok tt
      ∧ files run.2 !! ["out.s3p.out"; "0001.wav"]%string = Some a
      ∧ files run.2 !! ["out.s3p.out"; "0002.wav"]%string = Some b
      ∧ size (files run.2) = 2%nat.
Proof.
  intros Hos Ha Hb.
  destruct a as [|a1 [|a2 [|a3 [|]]]]; try discriminate.
  destruct b as [|b1 [|b2 [|b3 [|b4 [|b5 [|]]]]]]; try discriminate.
  rewrite (run_pack_reliable os no_sendfile);
    [|exact Hos|exact no_sendfile_reliable|repeat constructor|reflexivity].
  eexists. split; [vm_compute; reflexivity|].
  cbn [fdata]. repeat split; vm_compute; reflexivity.
Qed.

Lemma C9_scenario_witness :
  ∃ out,
    run_pack os_in_pairs [file_a; file_b] = (Ok tt, out)
    ∧ take 8 (fdata out) = [x53; x33; x50; x30; x02; x00; x00; x00]
    ∧ table_end (fdata out) = 8 + 2 * 8
    ∧ entry_table (fdata out) = [(24, 35); (59, 37)]
    ∧ let run := convert ["out.s3p"%string] (fdata out) empty_world in
      run.1 = Ok tt
      ∧ files run.2 !! ["out.s3p.out"; "0001.wav"]%string = Some (content file_a)
      ∧ files run.2 !! ["out.s3p.out"; "0002.wav"]%string = Some (content file_b)
      ∧ size (files run.2) = 2%nat.
Proof.
  apply (C9_scenario os_in_pairs (content file_a) (content file_b));
    [|reflexivity|reflexivity].
  intros _ pos call _. discriminate.
Defined.

(** Outside that hypothesis the scenario comes out differently: when
    os.sendfile moves two bytes and then raises OSError, pack and convert
    still succeed, but each record holds the two bytes sent followed by
    the whole file, so the rows are (24, 37) and (61, 39) and 0001.wav
    holds "ababc". *)
Example scenario_after_partial_sendfile :
  let out := (run_pack os_two_then_broken [file_a; file_b]).2 in
  let run := convert ["out.s3p"%string] (fdata out) empty_world in
  (run_pack os_two_then_broken [file_a; file_b]).1 = Ok tt
  ∧ entry_table (fdata out) = [(24, 37); (61, 39)]
  ∧ run.1 = Ok tt
  ∧ files run.2 !! ["out.s3p.out"; "0001.wav"]%string
    = Some [x61; x62; x61; x62; x63].
Proof. vm_compute. repeat split; reflexivity. Qed.

(** ** Copying one file *)

(** X1. Without os.sendfile, _copy_file_fast appends exactly the first
    [size] bytes of the source (all of it when it is shorter) to the
    output; and on every platform it appends nothing when [size] is zero
    or negative, whatever the source holds. *)
Theorem X1_copy_writes_first_size_bytes os src size d :
  (has_sendfile os = false →
   _copy_file_fast os src size (eof d)
   = (Ok tt, eof (d ++ take (Z.to_nat size) (content src))))
  ∧ (size <= 0 → _copy_file_fast os src size (eof d) = (Ok tt, eof d))
  ∧ len (take (Z.to_nat size) (content src))
    = Z.max 0 (Z.min size (len (content src))).
Proof.
  split; [apply copy_file_fast_loop|]. split.
  - intros H. unfold _copy_file_fast.
    destruct (Z.leb_spec size 0); [reflexivity|lia].
  - unfold len. rewrite length_take. lia.
Qed.

Lemma X1_copy_writes_first_size_bytes_witness :
  _copy_file_fast no_sendfile file_b 4 (eof [x07])
  = (Ok tt, eof ([x07] ++ take (Z.to_nat 4) (content file_b)))
  ∧ _copy_file_fast os_broken file_b (-1) (eof [x07]) = (Ok tt, eof [x07]).
Proof.
  split.
  - apply (proj1 (X1_copy_writes_first_size_bytes no_sendfile file_b 4 [x07])).
    reflexivity.
  - apply (proj1 (proj2 (X1_copy_writes_first_size_bytes os_broken file_b (-1)
                           [x07]))).
    lia.
Defined.

(** X2. With an os.sendfile that never raises and moves at least one byte
    whenever there is one to move, _copy_file_fast leaves the output
    exactly as it does on a platform without os.sendfile: the first
    [size] bytes of the source appended. *)
Theorem X2_sendfile_agrees_with_loop os src size d :
  sf_honest (sendfile os (len d)) →
  _copy_file_fast os src size (eof d)
  = _copy_file_fast (without_sendfile os) src size (eof d)
  ∧ _copy_file_fast os src size (eof d)
    = (Ok tt, eof (d ++ take (Z.to_nat size) (content src))).
Proof.
  intros Henv.
  rewrite (copy_file_fast_loop (without_sendfile os)) by reflexivity.
  enough (_copy_file_fast os src size (eof d)
          = (Ok tt, eof (d ++ take (Z.to_nat size) (content src))))
    by (split; assumption).
  destruct (has_sendfile os) eqn:Hsf; [|apply copy_file_fast_loop; exact Hsf].
  unfold _copy_file_fast. destruct (Z.leb_spec size 0) as [H0|H0].
  { replace (Z.to_nat size) with 0%nat by lia.
    simpl. rewrite app_nil_r. reflexivity. }
  rewrite Hsf. unfold bind at 1. unfold bind at 1. rewrite tell_eof.
  unfold try_sendfile. unfold bind at 1.
  rewrite (sendfile_loop_honest _ Henv)
    by (pose proof (len_nonneg (content src)); unfold len in *; lia).
  rewrite Z.sub_0_r. change (Z.to_nat 0) with 0%nat. rewrite drop_0.
  destruct (Z.eqb_spec (Z.min size (len (content src))) size) as [Heq|Hne].
  - rewrite Heq. reflexivity.
  - assert (Hshort : len (content src) < size) by lia.
    rewrite Z.min_r by lia. cbn [ret].
    rewrite copy_rest_eof by lia.
    replace (Z.to_nat (len (content src))) with (length (content src))
      by (unfold len; lia).
    rewrite drop_all, take_nil, app_nil_r.
    rewrite firstn_all.
    rewrite take_ge by (unfold len in Hshort; lia). reflexivity.
Qed.

Lemma X2_sendfile_agrees_with_loop_witness :
  _copy_file_fast os_in_pairs file_b 5 (eof [x07])
  = _copy_file_fast (without_sendfile os_in_pairs) file_b 5 (eof [x07])
  ∧ _copy_file_fast os_in_pairs file_b 5 (eof [x07])
    = (Ok tt, eof ([x07] ++ take (Z.to_nat 5) (content file_b))).
Proof.
  apply (X2_sendfile_agrees_with_loop os_in_pairs file_b 5 [x07]).
  intros call. exists 2. split; [reflexivity|lia].
Defined.

(** X3. What the except OSError branch does. When the first os.sendfile
    call raises, the read/write loop copies the file from its start and
    the output is that of a platform without os.sendfile. When the
    sendfile loop is ended by OSError after any number of calls, having
    moved k bytes in all (k < size), the read/write loop again starts from
    byte 0 of the source with the full [size]: the output then holds those
    k bytes followed by the first [size] bytes of the source. *)
Theorem X3_sendfile_oserror os src size d :
  has_sendfile os = true →
  (sendfile os (len d) 0%nat = SfOSError →
   _copy_file_fast os src size (eof d)
   = _copy_file_fast (without_sendfile os) src size (eof d))
  ∧ (∀ f',
       0 < size →
       sendfile_loop (S (length (content src))) (sendfile os (len d)) 0 size 0
         (content src) (eof d) = (Ok None, f') →
       ∃ k, 0 <= k < size ∧ k <= len (content src)
            ∧ f' = eof (d ++ take (Z.to_nat k) (content src))
            ∧ _copy_file_fast os src size (eof d)
              = (Ok tt, eof (d ++ take (Z.to_nat k) (content src)
                               ++ take (Z.to_nat size) (content src)))).
Proof.
  intros Hsf. split.
  - intros Herr.
    rewrite (copy_file_fast_loop (without_sendfile os)) by reflexivity.
    unfold _copy_file_fast. destruct (Z.leb_spec size 0) as [H0|H0].
    { replace (Z.to_nat size) with 0%nat by lia.
      simpl. rewrite app_nil_r. reflexivity. }
    rewrite Hsf. unfold bind at 1. unfold bind at 1. rewrite tell_eof.
    unfold try_sendfile. unfold bind at 1. cbn [sendfile_loop].
    destruct (Z.ltb_spec 0 size); [|lia]. rewrite Herr. cbn [ret].
    change (Z.to_nat 0) with 0%nat. rewrite drop_0.
    apply copy_loop_eof; lia.
  - intros f' Hsize Hloop.
    destruct (copy_file_fast_sendfile os src size d Hsf Hsize)
      as (r & k & Hk0 & Hk & Hr & Hrun & Hcopy).
    rewrite Hrun in Hloop. injection Hloop as Hnone Hf'.
    destruct Hr as [Hr|(_ & Hlt & _)]; [congruence|].
    exists k. repeat split; try lia.
    + symmetry. exact Hf'.
    + rewrite Hcopy, Hnone. reflexivity.
Qed.

Lemma X3_sendfile_oserror_witness :
  _copy_file_fast os_broken file_b 5 (eof [x07])
  = _copy_file_fast (without_sendfile os_broken) file_b 5 (eof [x07])
  ∧ ∃ k, 0 <= k < 5 ∧ k <= len (content file_b)
         ∧ eof [x07; x01; x02] = eof ([x07] ++ take (Z.to_nat k) (content file_b))
         ∧ _copy_file_fast os_one_one_broken file_b 5 (eof [x07])
           = (Ok tt, eof ([x07] ++ take (Z.to_nat k) (content file_b)
                            ++ take (Z.to_nat 5) (content file_b))).
Proof.
  split.
  - apply (proj1 (X3_sendfile_oserror os_broken file_b 5 [x07] eq_refl)).
    reflexivity.
  - apply (proj2 (X3_sendfile_oserror os_one_one_broken file_b 5 [x07] eq_refl)
             (eof [x07; x01; x02])).
    + lia.
    + reflexivity.
Defined.

(** ** The archive the packer writes *)

Lemma records_app os l1 : ∀ base l2,
  records os base (l1 ++ l2)
  = records os base l1 ++ records os (base + len (records os base l1)) l2.
Proof.
  induction l1 as [|a l1 IH]; intros base l2.
  - cbn [app records]. unfold len. simpl. rewrite Z.add_0_r. reflexivity.
  - cbn [app records]. rewrite IH, <- app_assoc. do 2 f_equal.
    rewrite len_app. unfold record_len. f_equal. lia.
Qed.

Lemma records_split os infiles i src base :
  infiles !! i = Some src →
  records os base infiles
  = records os base (take i infiles)
    ++ record_of os (base + len (records os base (take i infiles))) src
    ++ records os (base + len (records os base (take (S i) infiles)))
         (drop (S i) infiles).
Proof.
  intros Hi. rewrite <- (take_drop (S i) infiles) at 1.
  rewrite records_app. rewrite (take_S_r _ _ _ Hi) at 1.
  rewrite records_app. cbn [records]. rewrite app_nil_r, <- app_assoc.
  reflexivity.
Qed.

Lemma layout_lookup os infiles : ∀ base i src,
  infiles !! i = Some src →
  layout os base infiles !! i
  = Some (base + len (records os base (take i infiles)),
          record_len os (base + len (records os base (take i infiles))) src).
Proof.
  induction infiles as [|a rest IH]; intros base i src Hi; [discriminate|].
  destruct i as [|i].
  - injection Hi as ->. cbn [take records layout].
    change (len []) with 0. rewrite Z.add_0_r. reflexivity.
  - cbn [layout]. simpl in Hi. simpl lookup.
    rewrite (IH _ _ _ Hi). cbn [take records]. rewrite len_app.
    fold (record_len os base a). rewrite Z.add_assoc. reflexivity.
Qed.

Lemma fits_lookup os infiles : ∀ base i src,
  fits os base infiles = true → infiles !! i = Some src →
  0 <= st_size src <= 0xFFFFFFFF.
Proof.
  induction infiles as [|a rest IH]; intros base i src Hfit Hi; [discriminate|].
  cbn [fits] in Hfit. rewrite !andb_true_iff in Hfit.
  destruct Hfit as ((((H0 & H1) & H2) & H3) & H4).
  destruct i as [|i].
  - injection Hi as <-. lia.
  - simpl in Hi. eapply IH; eassumption.
Qed.

(** X4. Whatever os.sendfile does, pack succeeds exactly when the number
    of files, every file size, every entry offset and every record length
    fit an unsigned 32-bit field. Then the output file is, in this order,
    the header "S3P0" and the count, the table of (offset, length) rows,
    the payload records of the inputs in input order, and the four bytes
    78 56 34 12 of the end marker; the cursor is left at the end of the
    table. *)
Theorem X4_pack_output os infiles :
  ((run_pack os infiles).1 = Ok tt ↔ packable os infiles = true)
  ∧ (packable os infiles = true →
     fdata (run_pack os infiles).2
     = (S3P_MAGIC ++ encode_u32 (len infiles))
       ++ concat (map encode_entry (layout os (body_start infiles) infiles))
       ++ records os (body_start infiles) infiles
       ++ [x78; x56; x34; x12]
     ∧ Z.of_nat (fpos (run_pack os infiles).2)
       = HEADER_STRUCT_size + ENTRY_STRUCT_size * len infiles).
Proof.
  split; [apply pack_succeeds_iff|].
  intros Hp. rewrite pack_ok by exact Hp. cbn [snd fdata fpos].
  split; [reflexivity|].
  pose proof (len_nonneg infiles).
  unfold body_start, HEADER_STRUCT_size, ENTRY_STRUCT_size. lia.
Qed.

Lemma X4_pack_output_witness :
  fdata (run_pack os_two_then_broken [file_a; file_b]).2
  = (S3P_MAGIC ++ encode_u32 (len [file_a; file_b]))
    ++ concat (map encode_entry
                 (layout os_two_then_broken (body_start [file_a; file_b])
                    [file_a; file_b]))
    ++ records os_two_then_broken (body_start [file_a; file_b]) [file_a; file_b]
    ++ [x78; x56; x34; x12]
  ∧ Z.of_nat (fpos (run_pack os_two_then_broken [file_a; file_b]).2)
    = HEADER_STRUCT_size + ENTRY_STRUCT_size * len [file_a; file_b].
Proof.
  apply (proj2 (X4_pack_output os_two_then_broken [file_a; file_b])).
  reflexivity.
Defined.

(** X5. In the archive pack writes, whatever os.sendfile does, the table
    has one row per input; the row of input i holds the offset at which
    the records of the inputs before it end (counted from the end of the
    table) and the length 32 + the number of bytes _copy_file_fast put
    into the record; the archive is four bytes longer than the end of the
    last record. *)
Theorem X5_table_rows os infiles :
  packable os infiles = true →
  let archive := fdata (run_pack os infiles).2 in
  length (entry_table archive) = length infiles
  ∧ (∀ i src, infiles !! i = Some src →
       let o := body_start infiles
                + len (records os (body_start infiles) (take i infiles)) in
       entry_table archive !! i
       = Some (o, S3V0_STRUCT_size
                  + len (copied os (o + S3V0_STRUCT_size) src (st_size src))))
  ∧ len archive
    = body_start infiles + len (records os (body_start infiles) infiles) + 4.
Proof.
  intros Hp archive. subst archive. rewrite pack_ok by exact Hp. cbn [snd fdata].
  pose proof (packed_table os infiles (encode_u32 END_MARKER) Hp) as Htab.
  cbv zeta in Htab. destruct Htab as (_ & _ & _ & _ & _ & Htable).
  fold (archive_of os infiles) in Htable. rewrite Htable.
  split; [apply length_layout|]. split.
  - intros i src Hi. cbv zeta. rewrite (layout_lookup _ _ _ _ _ Hi).
    rewrite record_len_eq. reflexivity.
  - apply len_archive_of.
Qed.

Lemma X5_table_rows_witness :
  let archive := fdata (run_pack os_two_then_broken [file_a; file_b]).2 in
  length (entry_table archive) = length [file_a; file_b]
  ∧ (∀ i src, [file_a; file_b] !! i = Some src →
       let o := body_start [file_a; file_b]
                + len (records os_two_then_broken (body_start [file_a; file_b])
                         (take i [file_a; file_b])) in
       entry_table archive !! i
       = Some (o, S3V0_STRUCT_size
                  + len (copied os_two_then_broken (o + S3V0_STRUCT_size) src
                           (st_size src))))
  ∧ len archive
    = body_start [file_a; file_b]
      + len (records os_two_then_broken (body_start [file_a; file_b])
               [file_a; file_b]) + 4.
Proof.
  apply (X5_table_rows os_two_then_broken [file_a; file_b]). reflexivity.
Defined.

(** X6. Whatever os.sendfile does, every payload record of the archive
    pack writes starts, at the offset its table row gives, with the tag
    "S3V0", the header size 0x20, the size of the source file as reported
    by stat as payload_length and twenty zero bytes; the bytes
    _copy_file_fast copied follow from byte 32 of the record up to the end
    the table row gives. These are the bytes of the source file when its
    size is reported accurately and os.sendfile is absent or, if it raises
    OSError at all, raises it at the first call of a copy. *)
Theorem X6_record_headers os infiles i src :
  packable os infiles = true →
  infiles !! i = Some src →
  let archive := fdata (run_pack os infiles).2 in
  ∃ o ln,
    entry_table archive !! i = Some (o, ln)
    ∧ stored_magic archive o = S3V_MAGIC
    ∧ stored_header_size archive o = 0x20
    ∧ decode_u32 (bytes_range archive (o + 8) (o + 12)) = st_size src
    ∧ bytes_range archive (o + 12) (o + 32) = zeros 20
    ∧ bytes_range archive (o + 32) (o + ln)
      = copied os (o + 32) src (st_size src)
    ∧ (os_reliable os → stat_accurate src →
       bytes_range archive (o + 32) (o + ln) = content src).
Proof.
  intros Hp Hi archive. subst archive.
  rewrite pack_ok by exact Hp. cbn [snd fdata].
  pose proof (packed_table os infiles (encode_u32 END_MARKER) Hp) as Htab.
  cbv zeta in Htab. destruct Htab as (_ & _ & _ & _ & _ & Htable).
  fold (archive_of os infiles) in Htable. rewrite Htable.
  rewrite (layout_lookup _ _ _ _ _ Hi).
  set (o := body_start infiles
            + len (records os (body_start infiles) (take i infiles))).
  exists o, (record_len os o src). split; [reflexivity|].
  assert (Hsize : 0 <= st_size src <= 0xFFFFFFFF).
  { unfold packable in Hp. apply andb_true_iff in Hp as [_ Hfit].
    eapply fits_lookup; eassumption. }
  unfold archive_of.
  rewrite (records_split os infiles i src (body_start infiles) Hi).
  fold o.
  set (H := S3P_MAGIC ++ encode_u32 (len infiles)).
  set (T := concat (map encode_entry (layout os (body_start infiles) infiles))).
  set (R := records os (body_start infiles) (take i infiles)).
  set (rest := records os _ (drop (S i) infiles)).
  assert (Hpre : o = len ((H ++ T) ++ R)).
  { subst o. rewrite !len_app. subst T. rewrite length_encode_table, len_layout.
    fold R. generalize (len R). intros n.
    unfold body_start. change (len H) with HEADER_STRUCT_size. lia. }
  replace (H ++ T ++ (R ++ record_of os o src ++ rest) ++ encode_u32 END_MARKER)
    with (((H ++ T) ++ R) ++ record_of os o src
          ++ (rest ++ encode_u32 END_MARKER))
    by (rewrite <- !app_assoc; reflexivity).
  unfold record_len, record_of, S3V0_STRUCT_size.
  set (data := copied os (o + 32) src (st_size src)).
  destruct (record_at ((H ++ T) ++ R) (st_size src) data
              (rest ++ encode_u32 END_MARKER)) as (_ & Hm & Hs & Hpay).
  destruct (record_fields_at ((H ++ T) ++ R) (st_size src) data
              (rest ++ encode_u32 END_MARKER) Hsize) as (Hpl & Hres).
  rewrite <- Hpre in Hm, Hs, Hpay, Hpl, Hres.
  repeat split; try assumption.
  intros Hos Hstat. rewrite Hpay. subst data.
  apply copied_reliable; assumption.
Qed.

Lemma X6_record_headers_witness :
  let archive := fdata (run_pack os_two_then_broken [file_a; file_b]).2 in
  ∃ o ln,
    entry_table archive !! 1%nat = Some (o, ln)
    ∧ stored_magic archive o = S3V_MAGIC
    ∧ stored_header_size archive o = 0x20
    ∧ decode_u32 (bytes_range archive (o + 8) (o + 12)) = st_size file_b
    ∧ bytes_range archive (o + 12) (o + 32) = zeros 20
    ∧ bytes_range archive (o + 32) (o + ln)
      = copied os_two_then_broken (o + 32) file_b (st_size file_b)
    ∧ (os_reliable os_two_then_broken → stat_accurate file_b →
       bytes_range archive (o + 32) (o + ln) = content file_b).
Proof.
  apply (X6_record_headers os_two_then_broken [file_a; file_b] 1 file_b);
    reflexivity.
Defined.

(** ** What a failed pack leaves behind *)

Lemma pack_loop_fail_shape os infiles : ∀ entries d,
  fits os (len d) infiles = false →
  ∃ e k bytes, pack_loop os infiles entries (eof d) = (Err e, eof (d ++ bytes))
               ∧ bytes = records os (len d) (take k infiles).
Proof.
  induction infiles as [|src rest IH]; intros entries d Hfit; [discriminate|].
  cbn [pack_loop]. unfold bind. rewrite pack_entry_eof. rewrite !Z.gtb_ltb.
  destruct (Z.ltb_spec 4294967295 (st_size src)).
  { exists FileTooLarge, 0%nat, []. simpl. rewrite app_nil_r. split; reflexivity. }
  destruct (Z.ltb_spec (st_size src) 0).
  { exists StructRange, 0%nat, []. simpl. rewrite app_nil_r. split; reflexivity. }
  destruct (Z.ltb_spec 4294967295 (len d)).
  { exists ArchiveExceedsLimits, 1%nat, (record_of os (len d) src).
    cbn [take records]. rewrite app_nil_r. split; reflexivity. }
  destruct (Z.ltb_spec 4294967295 (record_len os (len d) src)).
  { exists ArchiveExceedsLimits, 1%nat, (record_of os (len d) src).
    cbn [take records]. rewrite app_nil_r. split; reflexivity. }
  simpl orb. cbv iota.
  destruct (IH (entries ++ [(len d, record_len os (len d) src)])
              (d ++ record_of os (len d) src))
    as (e & k & bytes & Hrun & Hbytes).
  { rewrite len_app. fold (record_len os (len d) src).
    cbn [fits] in Hfit. revert Hfit. btest; try lia. simpl. auto. }
  exists e, (S k), (record_of os (len d) src ++ bytes).
  rewrite Hrun, <- app_assoc. split; [reflexivity|].
  cbn [take records]. rewrite Hbytes, len_app. reflexivity.
Qed.

Lemma pack_fail_shape os infiles :
  packable os infiles = false →
  fdata (run_pack os infiles).2 = []
  ∨ (1 <= len infiles <= 0xFFFFFFFF
     ∧ ∃ bytes, fdata (run_pack os infiles).2
                = (S3P_MAGIC ++ encode_u32 (len infiles))
                  ++ zeros (ENTRY_STRUCT_size * len infiles)
                  ++ bytes).
Proof.
  unfold packable. intros Hp. pose proof (len_nonneg infiles) as Hnn.
  unfold run_pack, pack.
  destruct (Z.leb_spec (len infiles) 0xFFFFFFFF) as [Hn|Hn].
  - simpl in Hp. right.
    assert (Hne : 1 <= len infiles).
    { destruct infiles; [discriminate|]. unfold len. simpl. lia. }
    split; [lia|].
    unfold bind at 1, lift, HEADER_STRUCT_pack. rewrite pack_u32_ok by lia.
    change new_file with (eof []).
    unfold bind at 1. rewrite write_eof.
    unfold bind at 1. rewrite write_eof.
    unfold bind at 1.
    destruct (pack_loop_fail_shape os infiles []
                (([] ++ pack_s 4 S3P_MAGIC ++ encode_u32 (len infiles))
                 ++ zeros (ENTRY_STRUCT_size * len infiles)))
      as (e & k & bytes & Hrun & _).
    + rewrite <- Hp. f_equal.
      rewrite len_app, len_zeros by (unfold ENTRY_STRUCT_size; lia).
      reflexivity.
    + rewrite Hrun. exists bytes. cbn [snd fdata eof app].
      rewrite <- app_assoc. reflexivity.
  - left. unfold bind at 1, lift, HEADER_STRUCT_pack. unfold pack_u32 at 1.
    destruct (Z.leb_spec 0 (len infiles));
      destruct (Z.leb_spec (len infiles) 0xFFFFFFFF); try lia; reflexivity.
Qed.

Lemma convert_zero_table path n records w :
  1 <= n <= 0xFFFFFFFF →
  (convert path ((S3P_MAGIC ++ encode_u32 n) ++ zeros (ENTRY_STRUCT_size * n)
                 ++ records) w).1
  = Err EntryOutOfBounds.
Proof.
  intros Hn. set (mm := (S3P_MAGIC ++ encode_u32 n) ++ _).
  pose proof (len_nonneg records) as Hrec.
  assert (Hlen : len mm = 8 + 8 * n + len records).
  { subst mm. rewrite !len_app, len_zeros by (unfold ENTRY_STRUCT_size; lia).
    change (len S3P_MAGIC) with 4. change (len (encode_u32 n)) with 4.
    unfold ENTRY_STRUCT_size. lia. }
  assert (Hcount : stored_entry_count mm = n).
  { unfold stored_entry_count.
    change (bytes_range mm 4 8) with (encode_u32 n).
    apply decode_encode_u32. lia. }
  assert (Hend : table_end mm = 8 + 8 * n).
  { unfold table_end, HEADER_STRUCT_size, ENTRY_STRUCT_size. rewrite Hcount. lia. }
  assert (Htable : ∃ rows, entry_table mm = (0, 0) :: rows).
  { unfold entry_table. rewrite Hend. subst mm.
    rewrite <- (app_assoc S3P_MAGIC).
    replace (bytes_range (S3P_MAGIC ++ encode_u32 n
                          ++ zeros (ENTRY_STRUCT_size * n) ++ records)
               HEADER_STRUCT_size (8 + 8 * n))
      with (bytes_range ((S3P_MAGIC ++ encode_u32 n)
                         ++ zeros (ENTRY_STRUCT_size * n) ++ records)
              (len (S3P_MAGIC ++ encode_u32 n) + 0)
              (len (S3P_MAGIC ++ encode_u32 n) + 8 * n))
      by (rewrite <- (app_assoc S3P_MAGIC); reflexivity).
    rewrite bytes_range_app
      by (rewrite ?len_zeros by (unfold ENTRY_STRUCT_size; lia);
          unfold ENTRY_STRUCT_size; lia).
    unfold bytes_range, zeros, ENTRY_STRUCT_size.
    rewrite Z.sub_0_r. change (Z.to_nat 0) with 0%nat. rewrite drop_0.
    rewrite take_ge by (rewrite length_replicate; lia).
    replace (Z.to_nat (8 * n)) with (8 + Z.to_nat (8 * (n - 1)))%nat by lia.
    rewrite replicate_add. cbn [replicate app entry_rows].
    eexists. reflexivity. }
  destruct Htable as (rows & Htable).
  rewrite convert_entries.
  - rewrite Htable. cbn [extract_loop]. unfold bind.
    rewrite extract_one_out_of_bounds; [reflexivity|].
    unfold bounds_valid, S3V0_STRUCT_size. lia.
  - unfold HEADER_STRUCT_size. lia.
  - reflexivity.
  - rewrite Hend. lia.
Qed.

(** X7. Whatever pack leaves in the output file when it fails is not an
    archive the extractor accepts: extraction of it fails, either because
    nothing was written or because the table still holds its zero
    placeholder rows. This holds whatever os.sendfile does. *)
Theorem X7_failed_pack_not_extractable os infiles e path w :
  (run_pack os infiles).1 = Err e →
  (convert path (fdata (run_pack os infiles).2) w).1 = Err FileTooSmall
  ∨ (convert path (fdata (run_pack os infiles).2) w).1 = Err EntryOutOfBounds.
Proof.
  intros Hfail.
  assert (Hp : packable os infiles = false).
  { destruct (packable os infiles) eqn:Hp; [|reflexivity].
    rewrite pack_ok in Hfail by exact Hp. discriminate. }
  destruct (pack_fail_shape os infiles Hp) as [Hempty|(Hn & bytes & Hdata)].
  - left. rewrite Hempty. reflexivity.
  - right. rewrite Hdata. apply convert_zero_table. exact Hn.
Qed.

Lemma X7_failed_pack_not_extractable_witness :
  (convert ["out.s3p"%string]
     (fdata (run_pack os_two_then_broken [file_a; huge_file]).2)
     empty_world).1 = Err FileTooSmall
  ∨ (convert ["out.s3p"%string]
       (fdata (run_pack os_two_then_broken [file_a; huge_file]).2)
       empty_world).1 = Err EntryOutOfBounds.
Proof.
  apply (X7_failed_pack_not_extractable os_two_then_broken [file_a; huge_file]
           FileTooLarge).
  reflexivity.
Defined.

(** ** Extraction of an arbitrary archive *)

Lemma ancestors_and_self_prefix (p d : Path) :
  d ∈ ancestors_and_self p → d ≠ [] ∧ d `prefix_of` p.
Proof.
  revert d. induction p as [|c p IH]; intros d Hd; [inversion Hd|].
  cbn [ancestors_and_self] in Hd. apply elem_of_cons in Hd as [->|Hd].
  - split; [discriminate|]. exists p. reflexivity.
  - apply list_elem_of_fmap in Hd as (d' & -> & Hd').
    destruct (IH d' Hd') as [_ [k ->]].
    split; [discriminate|]. exists k. reflexivity.
Qed.

Lemma extract_one_frame mm offset length out_file w :
  (∀ p, p ≠ out_file →
     files (_extract_one mm offset length out_file w).2 !! p = files w !! p)
  ∧ (∀ d, d ∈ dirs (_extract_one mm offset length out_file w).2 →
       d ∈ dirs w ∨ d ∈ ancestors_and_self (parent out_file))
  ∧ (∀ e, (_extract_one mm offset length out_file w).1 = Err e →
       is_format_error e = true).
Proof.
  destruct (extract_one_cases mm offset length)
    as [Hb|[[Hb Hm]|[(Hb & Hm & Hl)|(Hb & Hm & Hl)]]].
  - rewrite extract_one_out_of_bounds by exact Hb. cbn [fst snd].
    repeat split; auto. intros e [= <-]. reflexivity.
  - rewrite extract_one_bad_magic by assumption. cbn [fst snd add_reads files dirs].
    repeat split; auto. intros e [= <-]. reflexivity.
  - rewrite extract_one_bad_layout by assumption. cbn [fst snd add_reads files dirs].
    repeat split; auto. intros e [= <-]. reflexivity.
  - rewrite extract_one_accept by assumption. cbn [fst snd files dirs].
    repeat split.
    + intros p Hp. apply lookup_insert_ne. congruence.
    + intros d Hd. apply elem_of_union in Hd as [Hd|Hd]; [right|left; exact Hd].
      apply elem_of_list_to_set in Hd. exact Hd.
    + intros e He. discriminate.
Qed.

Lemma extract_loop_frame mm out_dir rows : ∀ i w,
  (∀ p, (∀ j, (i <= j < i + length rows)%nat → p ≠ out_dir ++ [wav_name j]) →
     files (extract_loop mm out_dir i rows w).2 !! p = files w !! p)
  ∧ (∀ d, d ∈ dirs (extract_loop mm out_dir i rows w).2 →
       d ∈ dirs w ∨ d ∈ ancestors_and_self out_dir)
  ∧ (∀ e, (extract_loop mm out_dir i rows w).1 = Err e →
       is_format_error e = true)
  ∧ (∃ rs, reads (extract_loop mm out_dir i rows w).2 = reads w ++ rs
           ∧ Forall (in_bounds mm) rs).
Proof.
  induction rows as [|[offset ln] rows IH]; intros i w.
  - cbn. repeat split; auto; try discriminate.
    exists []. rewrite app_nil_r. split; [reflexivity|constructor].
  - cbn [extract_loop]. unfold bind.
    destruct (extract_one_frame mm offset ln (out_dir ++ [wav_name i]) w)
      as (Hf1 & Hd1 & He1).
    destruct (extract_one_reads mm offset ln (out_dir ++ [wav_name i]) w)
      as (rs1 & Hr1 & Hb1).
    unfold parent in Hd1. rewrite removelast_last in Hd1.
    destruct (_extract_one mm offset ln (out_dir ++ [wav_name i]) w)
      as [[[]|e] w1]; cbn [fst snd] in *.
    + destruct (IH (S i) w1) as (Hf2 & Hd2 & He2 & rs2 & Hr2 & Hb2).
      repeat split.
      * intros p Hp. rewrite Hf2 by (intros j Hj; apply Hp; cbn [length]; lia).
        apply Hf1. apply Hp. cbn [length]. lia.
      * intros d Hd. apply Hd2 in Hd as [Hd|Hd]; [apply Hd1; exact Hd|right; exact Hd].
      * exact He2.
      * exists (rs1 ++ rs2). rewrite Hr2, Hr1, app_assoc.
        split; [reflexivity|]. apply Forall_app. split; assumption.
    + repeat split.
      * intros p Hp. apply Hf1. apply Hp. cbn [length]. lia.
      * exact Hd1.
      * exact He1.
      * exists rs1. split; assumption.
Qed.

Lemma entry_rows_length region : ∀ n : nat,
  length region = (8 * n)%nat → length (entry_rows region) = n.
Proof.
  intros n. revert region. induction n as [|n IH]; intros region Hlen.
  - destruct region; [reflexivity|simpl in Hlen; lia].
  - destruct region as [|o0 [|o1 [|o2 [|o3 [|l0 [|l1 [|l2 [|l3 rest]]]]]]]];
      simpl in Hlen; try lia.
    cbn [entry_rows length]. f_equal. apply IH. lia.
Qed.

Lemma entry_table_length mm :
  table_end mm <= len mm →
  Z.of_nat (length (entry_table mm)) = stored_entry_count mm.
Proof.
  intros Hend.
  pose proof (decode_u32_range (bytes_range mm 4 8)) as Hc.
  fold (stored_entry_count mm) in Hc.
  unfold entry_table.
  rewrite (entry_rows_length _ (Z.to_nat (stored_entry_count mm))); [lia|].
  unfold bytes_range. rewrite length_take, length_drop.
  unfold table_end, HEADER_STRUCT_size, ENTRY_STRUCT_size, len in *. lia.
Qed.

Lemma out_dir_of_nonempty path : out_dir_of path ≠ [].
Proof.
  destruct path as [|c path]; [discriminate|].
  unfold out_dir_of. intros H. apply app_eq_nil in H as [_ H]. discriminate.
Qed.

Lemma convert_frame path mm w :
  (∀ p, ¬ entry_file path (stored_entry_count mm) p →
     files (convert path mm w).2 !! p = files w !! p)
  ∧ (∀ d, d ∈ dirs (convert path mm w).2 →
       d ∈ dirs w ∨ (d ≠ [] ∧ d `prefix_of` out_dir_of path))
  ∧ (∀ e, (convert path mm w).1 = Err e → is_format_error e = true)
  ∧ (∃ rs, reads (convert path mm w).2 = reads w ++ rs
           ∧ Forall (in_bounds mm) rs).
Proof.
  assert (Hself : ∀ d, d ∈ dirs (with_dir (out_dir_of path) w) →
            d ∈ dirs w ∨ (d ≠ [] ∧ d `prefix_of` out_dir_of path)).
  { intros d Hd. cbn [with_dir dirs] in Hd.
    apply elem_of_union in Hd as [Hd|Hd]; [|left; exact Hd].
    apply elem_of_singleton in Hd as ->. right.
    split; [apply out_dir_of_nonempty|reflexivity]. }
  destruct (Z.lt_ge_cases (len mm) HEADER_STRUCT_size) as [Hsmall|Hlen].
  { rewrite convert_too_small by exact Hsmall. cbn [fst snd].
    repeat split; auto.
    - intros e [= <-]. reflexivity.
    - exists []. rewrite app_nil_r. split; [reflexivity|constructor]. }
  assert (Hhdr : Forall (in_bounds mm) [(0, HEADER_STRUCT_size)]).
  { repeat constructor; cbn; unfold HEADER_STRUCT_size in *; lia. }
  destruct (decide (archive_magic mm = S3P_MAGIC)) as [Hm|Hm].
  2:{ rewrite convert_bad_magic by assumption. cbn [fst snd add_reads files dirs reads].
      repeat split; auto.
      - intros e [= <-]. reflexivity.
      - eexists. split; [reflexivity|exact Hhdr]. }
  destruct (Z_gt_le_dec (table_end mm) (len mm)) as [Hex|Hend].
  { rewrite convert_table_exceeds by assumption.
    cbn [fst snd add_reads files dirs reads].
    repeat split; auto.
    - intros e [= <-]. reflexivity.
    - eexists. split; [reflexivity|exact Hhdr]. }
  rewrite convert_entries by assumption.
  pose proof (entry_table_length mm Hend) as Hcount.
  pose proof (decode_u32_range (bytes_range mm 4 8)) as Hc.
  fold (stored_entry_count mm) in Hc.
  match goal with
  | |- context [ extract_loop _ _ _ _ ?w1 ] =>
      destruct (extract_loop_frame mm (out_dir_of path) (entry_table mm) 1 w1)
        as (Hf & Hd & He & rs & Hr & Hb)
  end.
  repeat split.
  - intros p Hp. rewrite Hf; [reflexivity|].
    intros j Hj Heq. apply Hp. exists j. split; [lia|]. split; [lia|exact Heq].
  - intros d Hdir. apply Hd in Hdir as [Hdir|Hdir].
    + apply Hself. exact Hdir.
    + right. apply ancestors_and_self_prefix. exact Hdir.
  - exact He.
  - exists ([(0, HEADER_STRUCT_size); (HEADER_STRUCT_size, table_end mm)] ++ rs).
    rewrite Hr. cbn [add_reads reads with_dir]. rewrite <- app_assoc.
    split; [reflexivity|]. apply Forall_app. split; [|exact Hb].
    repeat constructor; cbn;
      unfold table_end, HEADER_STRUCT_size, ENTRY_STRUCT_size in *; lia.
Qed.

(** X8. Whatever bytes it is given, convert fails only through its own
    checks: an error it returns is one of "File too small", "Bad magic"
    (archive or record), "Entry table exceeds file bounds", "Entry points
    outside file bounds" or "Invalid filestart", never a struct.error from
    an unpack that did not fit. *)
Theorem X8_convert_errors_are_checked path mm w e :
  (convert path mm w).1 = Err e → is_format_error e = true.
Proof. apply convert_frame. Qed.

Lemma X8_convert_errors_are_checked_witness :
  is_format_error EntryTableExceeds = true.
Proof.
  apply (X8_convert_errors_are_checked ["x.s3p"%string] truncated_archive
           empty_world EntryTableExceeds).
  reflexivity.
Defined.

(** X9. Whatever bytes it is given, every range convert requests from the
    memory map, for the header, the table and each record, lies within
    the map. *)
Theorem X9_convert_reads_in_bounds path mm w :
  ∃ rs, reads (convert path mm w).2 = reads w ++ rs
        ∧ Forall (in_bounds mm) rs.
Proof. apply convert_frame. Qed.

(** X10. Whatever bytes it is given, convert writes only files named
    NNNN.wav, numbered from 1 to the stored entry count, directly in the
    output directory of the archive, and makes no directory other than
    that output directory and its ancestors: every other path is left as
    it was. *)
Theorem X10_convert_confined path mm w :
  (∀ p, ¬ entry_file path (stored_entry_count mm) p →
     files (convert path mm w).2 !! p = files w !! p)
  ∧ (∀ d, d ∈ dirs (convert path mm w).2 →
       d ∈ dirs w ∨ (d ≠ [] ∧ d `prefix_of` out_dir_of path)).
Proof.
  split; [apply convert_frame|].
  intros d. apply convert_frame.
Qed.

Lemma extract_one_row_ok mm row out_file w :
  row_ok mm row →
  _extract_one mm row.1 row.2 out_file w
  = (Ok tt,
     {| dirs := list_to_set (ancestors_and_self (parent out_file)) ∪ dirs w;
        files := <[out_file := row_payload mm row]> (files w);
        reads := reads w ++ [(row.1, row.1 + S3V0_STRUCT_size);
                             (row.1 + stored_header_size mm row.1,
                              row.1 + row.2)] |}).
Proof. intros (Hb & Hm & Hl). apply extract_one_accept; assumption. Qed.

Lemma extract_one_row_bad mm row out_file w :
  ¬ row_ok mm row →
  ∃ e w', _extract_one mm row.1 row.2 out_file w = (Err e, w')
          ∧ files w' = files w ∧ dirs w' = dirs w.
Proof.
  intros Hbad.
  destruct (extract_one_cases mm row.1 row.2)
    as [Hb|[[Hb Hm]|[(Hb & Hm & Hl)|(Hb & Hm & Hl)]]].
  - rewrite extract_one_out_of_bounds by exact Hb. eauto.
  - rewrite extract_one_bad_magic by assumption. eexists _, _. eauto.
  - rewrite extract_one_bad_layout by assumption. eexists _, _. eauto.
  - exfalso. apply Hbad. repeat split; assumption || apply Hb.
Qed.

Lemma extract_loop_ok mm out_dir rows : ∀ i w,
  Forall (row_ok mm) rows →
  ∃ w', extract_loop mm out_dir i rows w = (Ok tt, w')
        ∧ files w' = written_rows mm out_dir i rows (files w).
Proof.
  induction rows as [|[offset ln] rows IH]; intros i w Hok.
  - exists w. split; reflexivity.
  - inversion Hok as [|? ? Hrow Hrest]; subst.
    cbn [extract_loop written_rows]. unfold bind.
    rewrite (extract_one_row_ok mm (offset, ln) _ w Hrow).
    match goal with
    | |- context [ extract_loop _ _ _ _ ?w1 ] =>
        destruct (IH (S i) w1 Hrest) as (w' & Hrun & Hfiles)
    end.
    exists w'. split; [exact Hrun|]. rewrite Hfiles. reflexivity.
Qed.

Lemma extract_loop_ok_inv mm out_dir rows : ∀ i w,
  (extract_loop mm out_dir i rows w).1 = Ok tt → Forall (row_ok mm) rows.
Proof.
  induction rows as [|[offset ln] rows IH]; intros i w Hrun; [constructor|].
  cbn [extract_loop] in Hrun. unfold bind in Hrun.
  destruct (decide (row_ok mm (offset, ln))) as [Hrow|Hrow].
  - constructor; [exact Hrow|].
    rewrite (extract_one_row_ok mm (offset, ln) _ w Hrow) in Hrun.
    eapply IH. exact Hrun.
  - destruct (extract_one_row_bad mm (offset, ln) (out_dir ++ [wav_name i]) w Hrow)
      as (e & w' & Hfail & _).
    cbn [fst snd] in Hfail. rewrite Hfail in Hrun. discriminate.
Qed.

(** The loop over a table in two parts is the loop over the first part
    followed by the loop over the second, numbered on. *)
Lemma extract_loop_app mm out_dir rows1 rows2 : ∀ i w,
  extract_loop mm out_dir i (rows1 ++ rows2) w
  = match extract_loop mm out_dir i rows1 w with
    | (Ok _, w1) => extract_loop mm out_dir (i + length rows1) rows2 w1
    | (Err e, w1) => (Err e, w1)
    end.
Proof.
  induction rows1 as [|[offset ln] rows1 IH]; intros i w.
  - cbn. rewrite Nat.add_0_r. reflexivity.
  - cbn [app extract_loop]. unfold bind.
    destruct (_extract_one mm offset ln (out_dir ++ [wav_name i]) w)
      as [[[]|e] w1]; [|reflexivity].
    rewrite IH. cbn [List.length]. replace (i + S (length rows1))%nat
      with (S i + length rows1)%nat by lia. reflexivity.
Qed.

Lemma written_rows_lookup_other mm out_dir rows : ∀ i m key,
  (∀ j, (i <= j)%nat → key ≠ out_dir ++ [wav_name j]) →
  written_rows mm out_dir i rows m !! key = m !! key.
Proof.
  induction rows as [|row rest IH]; intros i m key Hkey; [reflexivity|].
  cbn [written_rows]. rewrite IH by (intros j Hj; apply Hkey; lia).
  apply lookup_insert_ne. intros Heq. apply (Hkey i); [lia|]. symmetry. exact Heq.
Qed.

Lemma written_rows_lookup mm out_dir rows : ∀ i m k row,
  (1 <= i)%nat → rows !! k = Some row →
  written_rows mm out_dir i rows m !! (out_dir ++ [wav_name (i + k)])
  = Some (row_payload mm row).
Proof.
  induction rows as [|a rest IH]; intros i m k row Hi Hk; [discriminate|].
  cbn [written_rows]. destruct k as [|k].
  - injection Hk as ->. rewrite Nat.add_0_r.
    rewrite written_rows_lookup_other.
    + apply lookup_insert_eq.
    + intros j Hj Heq. apply out_file_inj in Heq; lia.
  - replace (i + S k)%nat with (S i + k)%nat by lia.
    apply IH; [lia|exact Hk].
Qed.

Lemma convert_ok_iff path mm w :
  (convert path mm w).1 = Ok tt
  ↔ HEADER_STRUCT_size <= len mm ∧ archive_magic mm = S3P_MAGIC
    ∧ table_end mm <= len mm ∧ Forall (row_ok mm) (entry_table mm).
Proof.
  split.
  - intros Hrun.
    destruct (Z.lt_ge_cases (len mm) HEADER_STRUCT_size) as [Hsmall|Hlen].
    { rewrite convert_too_small in Hrun by exact Hsmall. discriminate. }
    destruct (decide (archive_magic mm = S3P_MAGIC)) as [Hm|Hm].
    2:{ rewrite convert_bad_magic in Hrun by assumption. discriminate. }
    destruct (Z_gt_le_dec (table_end mm) (len mm)) as [Hex|Hend].
    { rewrite convert_table_exceeds in Hrun by assumption. discriminate. }
    rewrite convert_entries in Hrun by assumption.
    repeat split; try assumption.
    eapply extract_loop_ok_inv. exact Hrun.
  - intros (Hlen & Hm & Hend & Hrows).
    rewrite convert_entries by assumption.
    match goal with
    | |- context [ extract_loop _ _ _ _ ?w1 ] =>
        destruct (extract_loop_ok mm (out_dir_of path) (entry_table mm) 1 w1 Hrows)
          as (w' & Hrun & _)
    end.
    rewrite Hrun. reflexivity.
Qed.

(** X11. One bad entry aborts the pass. When the header and the table of
    an archive are accepted, the entries before the first row that fails
    its validation are written, each with the payload of its row, and
    convert fails there: neither that entry nor any later one is written. *)
Theorem X11_abort_at_first_bad_entry path mm w rows1 row rows2 :
  HEADER_STRUCT_size <= len mm → archive_magic mm = S3P_MAGIC →
  table_end mm <= len mm →
  entry_table mm = rows1 ++ row :: rows2 →
  Forall (row_ok mm) rows1 → ¬ row_ok mm row →
  (∃ e, (convert path mm w).1 = Err e)
  ∧ files (convert path mm w).2
    = written_rows mm (out_dir_of path) 1 rows1 (files w).
Proof.
  intros Hlen Hm Hend Htable Hok Hbad.
  rewrite convert_entries by assumption. rewrite Htable.
  rewrite extract_loop_app.
  match goal with
  | |- context [ extract_loop _ _ _ rows1 ?w1 ] =>
      destruct (extract_loop_ok mm (out_dir_of path) rows1 1 w1 Hok)
        as (w' & Hrun & Hfiles)
  end.
  rewrite Hrun. destruct row as [offset ln].
  cbn [extract_loop]. unfold bind.
  destruct (extract_one_row_bad mm (offset, ln)
              (out_dir_of path ++ [wav_name (1 + length rows1)]) w' Hbad)
    as (e & w'' & Hfail & Hf & _).
  cbn [fst snd] in Hfail. rewrite Hfail. cbn [fst snd].
  split; [eauto|]. rewrite Hf, Hfiles. reflexivity.
Qed.

Lemma X11_abort_at_first_bad_entry_witness :
  (∃ e, (convert ["out.s3p"%string] corrupted_archive empty_world).1 = Err e)
  ∧ files (convert ["out.s3p"%string] corrupted_archive empty_world).2
    = written_rows corrupted_archive (out_dir_of ["out.s3p"%string]) 1
        [(24, 35)] (files empty_world).
Proof.
  apply (X11_abort_at_first_bad_entry ["out.s3p"%string] corrupted_archive
           empty_world [(24, 35)] (59, 37) []).
  - vm_compute. discriminate.
  - reflexivity.
  - vm_compute. discriminate.
  - reflexivity.
  - repeat constructor; vm_compute; discriminate.
  - intros (_ & Hm & _). vm_compute in Hm. discriminate.
Defined.

(** X12. convert succeeds on exactly the archives that have at least the
    8 header bytes, the tag "S3P0", a table that ends within the archive,
    and in every row of it an offset and length inside the archive with
    length at least 32, the tag "S3V0" at the offset and a stored header
    size no larger than the length. *)
Theorem X12_convert_accepts_iff path mm w :
  (convert path mm w).1 = Ok tt
  ↔ HEADER_STRUCT_size <= len mm ∧ archive_magic mm = S3P_MAGIC
    ∧ table_end mm <= len mm ∧ Forall (row_ok mm) (entry_table mm).
Proof. apply convert_ok_iff. Qed.

Lemma X12_convert_accepts_iff_witness :
  (convert ["x.s3p"%string] empty_archive empty_world).1 = Ok tt.
Proof.
  apply (proj2 (X12_convert_accepts_iff ["x.s3p"%string] empty_archive empty_world)).
  repeat split.
  - vm_compute. discriminate.
  - vm_compute. discriminate.
  - constructor.
Defined.

(** X13. When convert succeeds, the file NNNN.wav of entry i (numbered
    from 1) holds exactly the bytes of the archive from offset +
    stored header_size to offset + length of the i-th table row: neither
    the payload_length field nor anything after the records is consulted. *)
Theorem X13_convert_output path mm w :
  (convert path mm w).1 = Ok tt →
  ∀ i row, entry_table mm !! i = Some row →
    files (convert path mm w).2 !! (out_dir_of path ++ [wav_name (S i)])
    = Some (bytes_range mm (row.1 + stored_header_size mm row.1) (row.1 + row.2)).
Proof.
  intros Hrun i row Hi.
  apply convert_ok_iff in Hrun as (Hlen & Hm & Hend & Hrows).
  rewrite convert_entries by assumption.
  match goal with
  | |- context [ extract_loop _ _ _ _ ?w1 ] =>
      destruct (extract_loop_ok mm (out_dir_of path) (entry_table mm) 1 w1 Hrows)
        as (w' & Hloop & Hfiles)
  end.
  rewrite Hloop. cbn [snd]. rewrite Hfiles.
  change (S i) with (1 + i)%nat.
  rewrite (written_rows_lookup _ _ _ _ _ _ row); [reflexivity|lia|exact Hi].
Qed.

Lemma X13_convert_output_witness :
  files (convert ["out.s3p"%string] (archive_of no_sendfile [file_a; file_b]) empty_world).2
    !! (out_dir_of ["out.s3p"%string] ++ [wav_name 2])
  = Some (bytes_range (archive_of no_sendfile [file_a; file_b])
            (59 + stored_header_size (archive_of no_sendfile [file_a; file_b]) 59) (59 + 37)).
Proof.
  apply (X13_convert_output ["out.s3p"%string] (archive_of no_sendfile [file_a; file_b])
           empty_world eq_refl 1%nat (59, 37)).
  reflexivity.
Defined.

Lemma X10_convert_confined_witness :
  files (convert ["out.s3p"%string] (archive_of no_sendfile [file_a; file_b]) empty_world).2
    !! ["out.s3p"%string]
  = files empty_world !! ["out.s3p"%string].
Proof.
  apply (proj1 (X10_convert_confined ["out.s3p"%string]
                  (archive_of no_sendfile [file_a; file_b]) empty_world)).
  intros (i & _ & _ & Heq). cbn in Heq. discriminate.
Defined.

(** ** The entry table, written and read back *)

(** X14. The table pack builds with pack_into, from a zero-filled
    bytearray of 8 bytes per row, for rows whose offsets and lengths fit
    unsigned 32-bit words, has 8 bytes per row and is read back by
    iter_unpack as the same rows in the same order. *)
Theorem X14_table_round_trip rows :
  Forall u32_row rows →
  ∃ table,
    fill_table (zeros (ENTRY_STRUCT_size * len rows)) 0 rows = Ok table
    ∧ len table = ENTRY_STRUCT_size * len rows
    ∧ ENTRY_STRUCT_iter_unpack table = Ok rows.
Proof.
  intros Hrows. exists (concat (map encode_entry rows)).
  split; [|split].
  - replace (zeros (ENTRY_STRUCT_size * len rows))
      with ([] ++ replicate (8 * length rows) x00)
      by (unfold zeros, ENTRY_STRUCT_size, len; simpl; f_equal; lia).
    apply (fill_table_ok rows [] 0 Hrows). reflexivity.
  - apply length_encode_table.
  - unfold ENTRY_STRUCT_iter_unpack. rewrite length_encode_table.
    rewrite Z.mul_comm, Z.mod_mul by (unfold ENTRY_STRUCT_size; lia).
    simpl. rewrite entry_rows_encode by exact Hrows. reflexivity.
Qed.

Lemma X14_table_round_trip_witness :
  ∃ table,
    fill_table (zeros (ENTRY_STRUCT_size * len [(24, 35); (59, 37)])) 0
      [(24, 35); (59, 37)] = Ok table
    ∧ len table = ENTRY_STRUCT_size * len [(24, 35); (59, 37)]
    ∧ ENTRY_STRUCT_iter_unpack table = Ok [(24, 35); (59, 37)].
Proof.
  apply (X14_table_round_trip [(24, 35); (59, 37)]).
  repeat constructor; vm_compute; discriminate.
Defined.

(** ** Running the extractor again *)

Lemma extract_loop_files mm out_dir rows : ∀ i w,
  files (extract_loop mm out_dir i rows w).2
  = written_rows mm out_dir i (accepted_prefix mm rows) (files w).
Proof.
  induction rows as [|[offset ln] rows IH]; intros i w; [reflexivity|].
  cbn [extract_loop accepted_prefix]. unfold bind.
  destruct (decide (row_ok mm (offset, ln))) as [Hrow|Hrow].
  - rewrite (extract_one_row_ok mm (offset, ln) _ w Hrow).
    rewrite IH. reflexivity.
  - destruct (extract_one_row_bad mm (offset, ln) (out_dir ++ [wav_name i]) w Hrow)
      as (e & w' & Hfail & Hf & _).
    cbn [fst snd] in Hfail. rewrite Hfail. exact Hf.
Qed.

Lemma convert_files path mm w :
  files (convert path mm w).2
  = written_rows mm (out_dir_of path) 1 (extracted_rows mm) (files w).
Proof.
  unfold extracted_rows.
  destruct (decide (HEADER_STRUCT_size <= len mm ∧ archive_magic mm = S3P_MAGIC
                    ∧ table_end mm <= len mm)) as [(Hlen & Hm & Hend)|Hbad].
  - rewrite convert_entries by assumption. rewrite extract_loop_files.
    reflexivity.
  - destruct (Z.lt_ge_cases (len mm) HEADER_STRUCT_size) as [Hsmall|Hlen].
    { rewrite convert_too_small by exact Hsmall. reflexivity. }
    destruct (decide (archive_magic mm = S3P_MAGIC)) as [Hm|Hm].
    2:{ rewrite convert_bad_magic by assumption. reflexivity. }
    destruct (Z_gt_le_dec (table_end mm) (len mm)) as [Hex|Hend].
    { rewrite convert_table_exceeds by assumption. reflexivity. }
    exfalso. apply Hbad. auto.
Qed.

Lemma written_rows_insert_comm mm out_dir rows : ∀ j m key v,
  (∀ j', (j <= j')%nat → key ≠ out_dir ++ [wav_name j']) →
  written_rows mm out_dir j rows (<[key := v]> m)
  = <[key := v]> (written_rows mm out_dir j rows m).
Proof.
  induction rows as [|row rest IH]; intros j m key v Hkey; [reflexivity|].
  cbn [written_rows].
  rewrite (insert_insert_ne m (out_dir ++ [wav_name j]) key)
    by (intros Heq; apply (Hkey j); [lia|symmetry; exact Heq]).
  apply IH. intros j' Hj'. apply Hkey. lia.
Qed.

Lemma written_rows_idem mm out_dir rows : ∀ i m,
  (1 <= i)%nat →
  written_rows mm out_dir i rows (written_rows mm out_dir i rows m)
  = written_rows mm out_dir i rows m.
Proof.
  induction rows as [|row rest IH]; intros i m Hi; [reflexivity|].
  cbn [written_rows].
  assert (Hkey : ∀ j', (S i <= j')%nat →
            out_dir ++ [wav_name i] ≠ out_dir ++ [wav_name j']).
  { intros j' Hj' Heq. apply out_file_inj in Heq; lia. }
  rewrite (written_rows_insert_comm mm out_dir rest (S i) m) by exact Hkey.
  rewrite insert_insert_eq.
  rewrite (written_rows_insert_comm mm out_dir rest (S i)) by exact Hkey.
  rewrite IH by lia. reflexivity.
Qed.

(** X17. Running convert a second time on the same archive changes no
    file: the files after the second run are those after the first,
    whether the runs succeed or fail. *)
Theorem X17_convert_again path mm w :
  files (convert path mm (convert path mm w).2).2
  = files (convert path mm w).2.
Proof.
  rewrite (convert_files path mm (convert path mm w).2).
  rewrite (convert_files path mm w).
  apply written_rows_idem. lia.
Qed.

(** ** The end marker *)

Lemma take_all_but_suffix {A} (l m : list A) :
  take (length (l ++ m) - length m) (l ++ m) = l.
Proof.
  rewrite length_app. replace (length l + length m - length m)%nat
    with (length l) by lia.
  apply take_app_length.
Qed.

(** X18. The end marker is not consulted by the extractor: with anything
    at all in place of the four bytes pack appends after the last record,
    or nothing, convert accepts the archive and writes the same files.
    This holds whatever os.sendfile does. *)
Theorem X18_end_marker_ignored os path infiles trailer w :
  packable os infiles = true →
  let archive := fdata (run_pack os infiles).2 in
  let mm := take (length archive - 4) archive ++ trailer in
  drop (length archive - 4) archive = [x78; x56; x34; x12]
  ∧ (convert path mm w).1 = Ok tt
  ∧ files (convert path mm w).2 = files (convert path archive w).2.
Proof.
  intros Hp archive mm. subst mm archive.
  rewrite pack_ok by exact Hp. cbn [snd fdata].
  unfold archive_of.
  set (H := S3P_MAGIC ++ encode_u32 (len infiles)).
  set (T := concat (map encode_entry (layout os (body_start infiles) infiles))).
  set (R := records os (body_start infiles) infiles).
  assert (Hsplit : H ++ T ++ R ++ encode_u32 END_MARKER
                   = (H ++ T ++ R) ++ encode_u32 END_MARKER)
    by (rewrite <- !app_assoc; reflexivity).
  rewrite Hsplit.
  change 4%nat with (length (encode_u32 END_MARKER)).
  rewrite take_all_but_suffix.
  split.
  { rewrite length_app.
    replace (length (H ++ T ++ R) + length (encode_u32 END_MARKER)
             - length (encode_u32 END_MARKER))%nat
      with (length (H ++ T ++ R)) by lia.
    rewrite drop_app_length. reflexivity. }
  rewrite <- Hsplit.
  replace ((H ++ T ++ R) ++ trailer) with (H ++ T ++ R ++ trailer)
    by (rewrite <- !app_assoc; reflexivity).
  destruct (convert_packed os path infiles trailer w Hp) as (w1 & Hrun1 & Hf1).
  destruct (convert_packed os path infiles (encode_u32 END_MARKER) w Hp)
    as (w2 & Hrun2 & Hf2).
  subst H T R. rewrite Hrun1, Hrun2. cbn [fst snd]. split; [reflexivity|].
  rewrite Hf1, Hf2. reflexivity.
Qed.

Lemma X18_end_marker_ignored_witness :
  let archive := fdata (run_pack os_two_then_broken [file_a; file_b]).2 in
  let mm := take (length archive - 4) archive ++ [] in
  drop (length archive - 4) archive = [x78; x56; x34; x12]
  ∧ (convert ["out.s3p"%string] mm empty_world).1 = Ok tt
  ∧ files (convert ["out.s3p"%string] mm empty_world).2
    = files (convert ["out.s3p"%string] archive empty_world).2.
Proof.
  apply (X18_end_marker_ignored os_two_then_broken ["out.s3p"%string]
           [file_a; file_b] [] empty_world).
  reflexivity.
Defined.

(** ** Directories and file names *)

Lemma extract_one_dirs_mono mm offset ln out_file w :
  dirs w ⊆ dirs (_extract_one mm offset ln out_file w).2.
Proof.
  destruct (extract_one_cases mm offset ln)
    as [Hb|[[Hb Hm]|[(Hb & Hm & Hl)|(Hb & Hm & Hl)]]].
  - rewrite extract_one_out_of_bounds by exact Hb. reflexivity.
  - rewrite extract_one_bad_magic by assumption. reflexivity.
  - rewrite extract_one_bad_layout by assumption. reflexivity.
  - rewrite extract_one_accept by assumption. cbn [snd dirs]. set_solver.
Qed.

Lemma extract_loop_dirs_mono mm out_dir rows : ∀ i w,
  dirs w ⊆ dirs (extract_loop mm out_dir i rows w).2.
Proof.
  induction rows as [|[offset ln] rows IH]; intros i w; [reflexivity|].
  cbn [extract_loop]. unfold bind.
  pose proof (extract_one_dirs_mono mm offset ln (out_dir ++ [wav_name i]) w) as H1.
  destruct (_extract_one mm offset ln (out_dir ++ [wav_name i]) w)
    as [[[]|e] w1]; cbn [snd] in *; [|exact H1].
  etrans; [exact H1|apply IH].
Qed.

(** X19. convert makes the output directory of the archive before it
    looks at the archive: whatever the bytes, accepted or not, the
    directory exists afterwards, and no directory that existed is lost. *)
Theorem X19_output_directory_always_made path mm w :
  out_dir_of path ∈ dirs (convert path mm w).2
  ∧ dirs w ⊆ dirs (convert path mm w).2.
Proof.
  assert (Hgoal : {[ out_dir_of path ]} ∪ dirs w ⊆ dirs (convert path mm w).2).
  { destruct (Z.lt_ge_cases (len mm) HEADER_STRUCT_size) as [Hsmall|Hlen].
    { rewrite convert_too_small by exact Hsmall. reflexivity. }
    destruct (decide (archive_magic mm = S3P_MAGIC)) as [Hm|Hm].
    2:{ rewrite convert_bad_magic by assumption. reflexivity. }
    destruct (Z_gt_le_dec (table_end mm) (len mm)) as [Hex|Hend].
    { rewrite convert_table_exceeds by assumption. reflexivity. }
    rewrite convert_entries by assumption.
    etrans; [|apply extract_loop_dirs_mono]. reflexivity. }
  split; set_solver.
Qed.

(** X20. Entries with different numbers get different output files: the
    names NNNN.wav of two entries numbered from 1 coincide only when the
    numbers do, also past 9999 where the number takes more than four
    digits. *)
Theorem X20_entry_names_distinct (out_dir : Path) (i j : nat) :
  (1 <= i)%nat → (1 <= j)%nat →
  out_dir ++ [wav_name i] = out_dir ++ [wav_name j] → i = j.
Proof. apply out_file_inj. Qed.

Lemma X20_entry_names_distinct_witness : 7%nat = 7%nat.
Proof.
  apply (X20_entry_names_distinct ["x.out"%string] 7 7); [lia|lia|reflexivity].
Defined.

Lemma written_rows_size mm out_dir rows : ∀ i m,
  (1 <= i)%nat →
  (∀ j, (i <= j)%nat → m !! (out_dir ++ [wav_name j]) = None) →
  size (written_rows mm out_dir i rows m) = (size m + length rows)%nat.
Proof.
  induction rows as [|a rest IH]; intros i m Hi Hfree.
  - simpl. lia.
  - cbn [written_rows List.length]. rewrite IH.
    + rewrite map_size_insert_None by (apply Hfree; lia). lia.
    + lia.
    + intros j Hj. rewrite lookup_insert_ne; [apply Hfree; lia|].
      intros Heq. apply out_file_inj in Heq; lia.
Qed.

(** X21. When convert succeeds in a world without files, it leaves
    exactly as many files as the header's entry count says. *)
Theorem X21_one_file_per_entry path mm w :
  files w = ∅ →
  (convert path mm w).1 = Ok tt →
  Z.of_nat (size (files (convert path mm w).2)) = stored_entry_count mm.
Proof.
  intros Hempty Hrun.
  apply convert_ok_iff in Hrun as (Hlen & Hm & Hend & Hrows).
  rewrite convert_entries by assumption.
  match goal with
  | |- context [ extract_loop _ _ _ _ ?w1 ] =>
      destruct (extract_loop_ok mm (out_dir_of path) (entry_table mm) 1 w1 Hrows)
        as (w' & Hloop & Hfiles)
  end.
  rewrite Hloop. cbn [snd]. rewrite Hfiles.
  cbn [add_reads with_dir files]. rewrite Hempty.
  rewrite written_rows_size.
  - rewrite map_size_empty. simpl. apply entry_table_length. exact Hend.
  - lia.
  - intros j _. apply lookup_empty.
Qed.

Lemma X21_one_file_per_entry_witness :
  Z.of_nat (size (files (convert ["out.s3p"%string] (archive_of no_sendfile [file_a; file_b])
                           empty_world).2))
  = stored_entry_count (archive_of no_sendfile [file_a; file_b]).
Proof.
  apply (X21_one_file_per_entry ["out.s3p"%string] (archive_of no_sendfile [file_a; file_b])
           empty_world); reflexivity.
Defined.
